(** * zerorpc: the client invokers, the event envelope, the channel
      multiplexer and the task registry

    A shallow embedding of [client.go] ([Invoke], [InvokeReply],
    [InvokeStream]) together with models of the collaborators the client
    calls (event codec, channels, heartbeat sweep, task registry), and
    the properties stated about them. *)

From Stdlib Require Import ZArith.
From Stdlib.Strings Require Import Byte.
From stdpp Require Import gmap strings list fin_maps.

Set Warnings "-register-all".

Local Open Scope string_scope.
Local Open Scope Z_scope.
Local Open Scope list_scope.

(** ** Go values *)

Module Go.

(** A Go slice: [nil] is distinct from an empty, allocated slice
    ([make([]T, 0)]). *)
Inductive slice (A : Type) : Type :=
| nil_slice
| slice_of (elems : list A).
Arguments nil_slice {A}.
Arguments slice_of {A} elems.

Definition elems_of {A} (s : slice A) : list A :=
  match s with
  | nil_slice => []
  | slice_of l => l
  end.

(** [len(s)] *)
Definition len {A} (s : slice A) : nat := length (elems_of s).

(** [append(s, x)]: the result is never nil. *)
Definition append {A} (s : slice A) (x : A) : slice A :=
  slice_of (elems_of s ++ [x]).

(** [reflect.Kind], restricted to the kinds of the types below. *)
Module reflect.
Inductive Kind : Set :=
| Invalid | Bool | Int | Int64 | Float64 | String | Slice | Map
| Struct | Ptr | Interface.
End reflect.
Abbreviation Kind := reflect.Kind.

Global Instance Kind_eq_dec : EqDecision Kind.
Proof. solve_decision. Defined.

(** Static Go types. A struct type lists its fields as
    (name, exported, type). *)
Inductive type : Type :=
| TBool | TInt | TInt64 | TFloat64 | TString
| TBytes                       (* []byte *)
| TSlice                       (* []interface{} *)
| TMap                         (* map[interface{}]interface{} *)
| TInterface                   (* interface{} *)
| TStruct (fields : list (string * bool * type))
| TPtr (elem : type).

(** [Type.Kind()] *)
Definition kind_of (t : type) : Kind :=
  match t with
  | TBool => reflect.Bool
  | TInt => reflect.Int
  | TInt64 => reflect.Int64
  | TFloat64 => reflect.Float64
  | TString => reflect.String
  | TBytes | TSlice => reflect.Slice
  | TMap => reflect.Map
  | TInterface => reflect.Interface
  | TStruct _ => reflect.Struct
  | TPtr _ => reflect.Ptr
  end.

Definition addr := positive.

(** What an [interface{}] holds: a tagged union over the dynamic
    types that occur. Floats are kept as their IEEE-754 bit pattern.
    A struct value carries its struct type, a pointer its element type
    and its target ([None] for a nil pointer). *)
Inductive any : Type :=
| ANil
| ABool (b : bool)
| AInt (z : Z)
| AInt64 (z : Z)
| AFloat64 (bits : Z)
| AString (s : string)
| ABytes (bs : list byte)
| ASlice (l : list any)
| AMap (kvs : list (any * any))
| AStruct (fields : list (string * bool * type)) (vals : list any)
| APtr (elem : type) (target : option addr).

(** [reflect.TypeOf(i)]: [None] is the nil [reflect.Type] returned
    for a nil interface. *)
Definition TypeOf (i : any) : option type :=
  match i with
  | ANil => None
  | ABool _ => Some TBool
  | AInt _ => Some TInt
  | AInt64 _ => Some TInt64
  | AFloat64 _ => Some TFloat64
  | AString _ => Some TString
  | ABytes _ => Some TBytes
  | ASlice _ => Some TSlice
  | AMap _ => Some TMap
  | AStruct fs _ => Some (TStruct fs)
  | APtr t _ => Some (TPtr t)
  end.

(** Go's [error] interface; a nil error is [None : option error].
    [Errorf_s args] is [fmt.Errorf("%s", args)];
    [Errorf_reply k] is
    [fmt.Errorf("reply must be pointer, get %s %s", val.Kind(), val)]
    with [k = val.Kind()]. *)
Inductive error : Type :=
| Errorf_s (args : slice any)
| Errorf_reply (k : Kind)
| ErrLostRemote
| DuplicateTaskError
| DecodeError
| ErrOther (msg : string).

End Go.

Import Go.

(** ** Events *)

(** [Event]: header mapping, name, ordered args. *)
Record Event : Type := mkEvent {
  Header : gmap string any;
  Name : string;
  Args : slice any
}.

(** ** The channel multiplexer *)

Module Channel.

Definition ChanId := string.

(** Client-side channel states. *)
Inductive chan_state : Set :=
| Idle | Sent | Received | Streaming | Lost | ErrGotten | Closed.

(** Modelled from the spec: the channel object ([channel.go] is not
    among the sources). It has an inbound queue of decoded events, an
    error slot, the time of the last received event (nanoseconds) and
    a heartbeat timer. *)
Record channel : Type := mkChannel {
  state : chan_state;
  queue : list Event;
  errslot : list error;
  last_seen : Z;
  heartbeat_on : bool
}.

(** Modelled from the spec: the multiplexer ([socket.go] is not among
    the sources). Channel objects are shared between the invoker that
    owns them and the multiplexer, so they live in one store keyed by
    id; [open] is the multiplexer's lookup table of currently open
    channels. *)
Record socket : Type := mkSocket {
  chans : gmap ChanId channel;
  open : gset ChanId
}.

Definition Second : Z := 1000000000.

(** Modelled from the spec: heartbeat interval H = 5s. *)
Definition HeartbeatFrequency : Z := 5 * Second.

(** Modelled from the spec: liveness threshold 2H. *)
Definition liveness_threshold : Z := 2 * HeartbeatFrequency.

(** Modelled from the spec: [close()] stops the channel's heartbeat
    timer and unregisters the channel from the multiplexer. *)
Definition stop (c : channel) : channel :=
  {| state := Closed; queue := queue c; errslot := errslot c;
     last_seen := last_seen c; heartbeat_on := false |}.

Definition close (ch : ChanId) (s : socket) : socket :=
  {| chans := alter stop ch (chans s);
     open := (open s ∖ {[ch]}) |}.

(** A channel is closed when its timer is not running and the
    multiplexer has no entry for it. *)
Definition closed (ch : ChanId) (s : socket) : Prop :=
  (ch ∉ open s) ∧ (∀ c, chans s !! ch = Some c → heartbeat_on c = false).

(** Modelled from the spec: marking a channel lost pushes
    [ErrLostRemote] into its error slot. *)
Definition lose (c : channel) : channel :=
  {| state := Lost; queue := queue c;
     errslot := errslot c ++ [ErrLostRemote];
     last_seen := last_seen c; heartbeat_on := heartbeat_on c |}.

(** Modelled from the spec: the sweep run on each heartbeat tick, at
    time [now]. Every tracked channel whose [last_seen] is older than
    the liveness threshold is marked lost. *)
Definition stale (now : Z) (c : channel) : bool :=
  bool_decide (liveness_threshold < now - last_seen c).

Definition sweep (now : Z) (s : socket) : socket :=
  {| chans :=
       map_imap (λ id c,
         Some (if bool_decide (id ∈ open s) && stale now c
               then lose c else c)) (chans s);
     open := open s |}.

(** What a consumer waiting on a channel may receive next: an event
    from the queue or an error from the error slot. *)
Inductive delivery : Type :=
| Output (response : Event)
| ChanErr (err : error).

Inductive ready (c : channel) : delivery → Prop :=
| ready_output ev q : queue c = ev :: q → ready c (Output ev)
| ready_error err es : errslot c = err :: es → ready c (ChanErr err).

End Channel.

Import Channel.

(** ** Effects: the socket, the heap, and how a call can end *)

(** The mutable world a client call runs in: the socket behind the
    client ([c.socket]) and the heap cells that Go pointers refer to. *)
Record world : Type := mkWorld {
  sock : socket;
  heap : gmap addr any
}.

(** A call returns, blocks for ever on its [select], or panics. *)
Inductive outcome (A : Type) : Type :=
| Return (a : A)
| Blocked
| Panic (msg : string).
Arguments Return {A} a.
Arguments Blocked {A}.
Arguments Panic {A} msg.

Definition M (A : Type) : Type := world → outcome A * world.

Definition ret {A} (a : A) : M A := λ w, (Return a, w).

Definition bind {A B} (k : A → M B) (m : M A) : M B :=
  λ w, match m w with
       | (Return a, w') => k a w'
       | (Blocked, w') => (Blocked, w')
       | (Panic msg, w') => (Panic msg, w')
       end.

Definition panic {A} (msg : string) : M A := λ w, (Panic msg, w).

Definition block {A} : M A := λ w, (Blocked, w).

Global Instance M_ret : MRet M := @ret.
Global Instance M_bind : MBind M := @bind.

(** A socket operation run in the world. *)
Definition on_sock {A} (f : socket → A * socket) : M A :=
  λ w, let '(a, s) := f (sock w) in
       (Return a, {| sock := s; heap := heap w |}).

(** [defer d] before [body]: [d] runs when [body] returns or panics;
    a body that blocks never gets there. *)
Definition defer {A} (d : socket → socket) (body : M A) : M A :=
  λ w, match body w with
       | (Blocked, w') => (Blocked, w')
       | (r, w') => (r, {| sock := d (sock w'); heap := heap w' |})
       end.

(** ** Reflection *)

(** [reflect.Value]: the zero Value, a value held by an interface (not
    addressable), a variable in the heap (addressable), or a field of a
    struct variable in the heap. *)
Inductive Value : Type :=
| zeroValue
| valueOf (v : any)
| valueAt (t : type) (a : addr)
| fieldAt (a : addr) (i : nat) (exported : bool) (t : type).

(** [reflect.ValueOf(i)] *)
Definition ValueOf (i : any) : Value :=
  match i with
  | ANil => zeroValue
  | _ => valueOf i
  end.

(** [v.Kind()] *)
Definition Value_Kind (v : Value) : Kind :=
  match v with
  | zeroValue => reflect.Invalid
  | valueOf i => from_option kind_of reflect.Invalid (TypeOf i)
  | valueAt t _ => kind_of t
  | fieldAt _ _ _ t => kind_of t
  end.

(** The content of a variable in the heap. *)
Definition load (v : Value) : M any :=
  λ w, match v with
       | valueAt _ a =>
           match heap w !! a with
           | Some x => (Return x, w)
           | None => (Panic "invalid memory address", w)
           end
       | fieldAt a i _ _ =>
           match heap w !! a with
           | Some (AStruct _ vals) =>
               match vals !! i with
               | Some x => (Return x, w)
               | None => (Panic "invalid memory address", w)
               end
           | _ => (Panic "invalid memory address", w)
           end
       | valueOf x => (Return x, w)
       | zeroValue => (Return ANil, w)
       end.

(** [v.Elem()]: the value an interface contains or a pointer points to;
    it panics if [v]'s kind is neither Interface nor Ptr, and gives the
    zero Value for a nil pointer or interface. *)
Definition Value_Elem (v : Value) : M Value :=
  match Value_Kind v with
  | reflect.Ptr =>
      x ← load v;
      match x with
      | APtr t (Some a) => mret (valueAt t a)
      | _ => mret zeroValue
      end
  | reflect.Interface =>
      x ← load v; mret (ValueOf x)
  | _ => panic "reflect: call of reflect.Value.Elem on non-pointer Value"
  end.

(** [t.Kind()] on a [reflect.Type]; calling it on the nil Type is a nil
    dereference. *)
Definition Type_Kind (t : option type) : M Kind :=
  match t with
  | Some t => mret (kind_of t)
  | None => panic "invalid memory address or nil pointer dereference"
  end.

(** [t.Elem()], as used on pointer types. *)
Definition Type_Elem (t : option type) : M type :=
  match t with
  | Some (TPtr e) => mret e
  | _ => panic "reflect: Elem of invalid type"
  end.

(** [t.NumField()]: panics unless [t] is a struct type. *)
Definition NumField (t : type) : M nat :=
  match t with
  | TStruct fs => mret (length fs)
  | _ => panic "reflect: NumField of non-struct type"
  end.

(** [v.Field(i)]: panics unless [v]'s kind is Struct and [i] is in
    range. *)
Definition Value_Field (v : Value) (i : nat) : M Value :=
  match v with
  | valueAt (TStruct fs) a =>
      match fs !! i with
      | Some (_, exported, t) => mret (fieldAt a i exported t)
      | None => panic "reflect: Field index out of range"
      end
  | valueOf (AStruct fs vals) =>
      match vals !! i with
      | Some x => mret (valueOf x)
      | None => panic "reflect: Field index out of range"
      end
  | _ => panic "reflect: call of reflect.Value.Field on non-struct Value"
  end.

(** [v.CanSet()]: addressable and not reached through an unexported
    field. *)
Definition CanSet (v : Value) : bool :=
  match v with
  | valueAt _ _ => true
  | fieldAt _ _ exported _ => exported
  | _ => false
  end.

(** Writing a settable value. *)
Definition store (v : Value) (x : any) : M unit :=
  λ w, match v with
       | valueAt _ a =>
           (Return (), {| sock := sock w; heap := <[a := x]> (heap w) |})
       | fieldAt a i true _ =>
           match heap w !! a with
           | Some (AStruct fs vals) =>
               (Return (),
                {| sock := sock w;
                   heap := <[a := AStruct fs (<[i := x]> vals)]> (heap w) |})
           | _ => (Panic "invalid memory address", w)
           end
       | _ => (Panic "reflect: Set using unaddressable value", w)
       end.

(** [v.SetInt(x)]: panics unless [v] is settable and of an integer
    kind ([int] is taken to be 64 bits wide). *)
Definition SetInt (v : Value) (x : Z) : M unit :=
  if CanSet v then
    match Value_Kind v with
    | reflect.Int => store v (AInt x)
    | reflect.Int64 => store v (AInt64 x)
    | _ => panic "reflect: call of reflect.Value.SetInt on non-int Value"
    end
  else panic "reflect: reflect.Value.SetInt using unaddressable value".

(** [v.SetString(x)] *)
Definition SetString (v : Value) (x : string) : M unit :=
  if CanSet v then
    match Value_Kind v with
    | reflect.String => store v (AString x)
    | _ => panic "reflect: call of reflect.Value.SetString on non-string Value"
    end
  else panic "reflect: reflect.Value.SetString using unaddressable value".

(** The type assertions [r.(int64)] and [r.(string)]. *)
Definition assert_int64 (r : any) : M Z :=
  match r with
  | AInt64 z => mret z
  | _ => panic "interface conversion: interface {} is not int64"
  end.

Definition assert_string (r : any) : M string :=
  match r with
  | AString s => mret s
  | _ => panic "interface conversion: interface {} is not string"
  end.

(** [s[i]] *)
Definition index {A} (s : slice A) (i : nat) : M A :=
  match elems_of s !! i with
  | Some x => mret x
  | None => panic "index out of range"
  end.

(** ** The client invokers ([client.go]) *)

(** [newEvent], [socket.newChannel] and [channel.sendEvent] are defined
    outside [client.go]; the invokers are embedded over arbitrary
    implementations of them. The [log.Printf] calls are left out. *)
Class Runtime : Type := {
  newEvent : string → slice any → Event + error;
  newChannel : string → socket → ChanId * socket;
  sendEvent : ChanId → Event → socket → option error * socket
}.

Section ClientInvoker.

Context {rt : Runtime}.

(** The [for { select { ... } }] of [Invoke], run on the deliveries
    the channel hands over, in the order the [select] takes them. *)
Definition Invoke_select (ds : list delivery)
  : M (slice any * option error) :=
  match ds with
  | Output response :: _ =>
      if String.eqb (Name response) "ERR"
      then mret (Args response, Some (Errorf_s (Args response)))
      else mret (Args response, None)
  | ChanErr err :: _ => mret (nil_slice, Some err)
  | [] => block
  end.

Definition Invoke (name : string) (args : slice any) (ds : list delivery)
  : M (slice any * option error) :=
  match newEvent name args with
  | inr err => mret (nil_slice, Some err)
  | inl ev =>
      ch ← on_sock (newChannel "");
      defer (close ch)
        (err ← on_sock (sendEvent ch ev);
         match err with
         | Some err => mret (nil_slice, Some err)
         | None => Invoke_select ds
         end)
  end.

(** The [for { select { ... } }] of [InvokeStream], with the
    accumulator [out]. *)
Fixpoint InvokeStream_select (out : slice (slice any))
    (ds : list delivery) : M (slice (slice any) * option error) :=
  match ds with
  | Output response :: ds' =>
      if String.eqb (Name response) "ERR" then
        let out := append out (Args response) in
        mret (out, Some (Errorf_s (Args response)))
      else if String.eqb (Name response) "OK" then
        let out := append out (Args response) in
        mret (out, None)
      else if String.eqb (Name response) "STREAM" then
        let out := append out (Args response) in
        InvokeStream_select out ds'
      else mret (out, None)
  | ChanErr err :: _ => mret (nil_slice, Some err)
  | [] => block
  end.

Definition InvokeStream (name : string) (args : slice any)
    (ds : list delivery) : M (slice (slice any) * option error) :=
  match newEvent name args with
  | inr err => mret (nil_slice, Some err)
  | inl ev =>
      ch ← on_sock (newChannel "");
      defer (close ch)
        (err ← on_sock (sendEvent ch ev);
         match err with
         | Some err => mret (nil_slice, Some err)
         | None => InvokeStream_select (slice_of []) ds
         end)
  end.

(** The body of the field loop of [InvokeReply] for index [i]. *)
Definition set_field (val : Value) (reply_args : slice any) (i : nat)
  : M unit :=
  f ← Value_Field val i;
  if negb (CanSet f) then mret ()
  else
    r ← index reply_args i;
    match Value_Kind f with
    | reflect.Int => x ← assert_int64 r; SetInt f x
    | reflect.String => x ← assert_string r; SetString f x
    | _ => mret ()
    end.

(** [for i := 0; i < typ.NumField(); i++ { ... }], over the indices
    still to visit. *)
Fixpoint set_fields (val : Value) (reply_args : slice any)
    (todo : list nat) : M unit :=
  match todo with
  | [] => mret ()
  | i :: todo' => _ ← set_field val reply_args i;
                  set_fields val reply_args todo'
  end.

Definition InvokeReply (name : string) (reply : any) (args : slice any)
    (ds : list delivery) : M (option error) :=
  val ← Value_Elem (ValueOf reply);
  let typ := TypeOf reply in
  k ← Type_Kind typ;
  if negb (bool_decide (k = reflect.Ptr)) then
    mret (Some (Errorf_reply (Value_Kind val)))
  else
    typ ← Type_Elem typ;
    '(reply_args, err) ← Invoke name args ds;
    match err with
    | Some _ => mret err
    | None =>
        n ← NumField typ;
        if negb (bool_decide (n = len reply_args)) then mret err
        else _ ← set_fields val reply_args (seq 0 n); mret err
    end.

(** The setup of a call went through: the event was built, the
    channel [ch] opened and the event sent, leaving the socket in
    [s]. *)
Definition sent (name : string) (args : slice any) (w : world)
    (ch : ChanId) (s : socket) : Prop :=
  ∃ ev, newEvent name args = inl ev
        ∧ ch = (newChannel "" (sock w)).1
        ∧ sendEvent ch ev (newChannel "" (sock w)).2 = (None, s).

End ClientInvoker.

(** ** The event codec *)

Module EventCodec.

(** The codec's value space: string, integer, float, binary, nested
    sequence and mapping. *)
Fixpoint wire_value (v : any) : bool :=
  match v with
  | AInt64 _ | AFloat64 _ | AString _ | ABytes _ => true
  | ASlice l => forallb wire_value l
  | AMap kvs => forallb (λ kv, wire_value kv.1 && wire_value kv.2) kvs
  | _ => false
  end.

(** Modelled from the spec: the wire shape of an event, the ordered
    triple [[header, name, args]] ([event.go] is not among the
    sources). *)
Definition envelope (e : Event) : any :=
  ASlice [AMap (prod_map AString id <$> map_to_list (Header e));
          AString (Name e);
          ASlice (elems_of (Args e))].

Definition header_entry (kv : any * any) : option (string * any) :=
  match kv.1 with
  | AString k => Some (k, kv.2)
  | _ => None
  end.

(** Modelled from the spec: reading an envelope back fails with
    [DecodeError] on a malformed triple or when the header lacks
    [message_id]. *)
Definition open_envelope (v : any) : Event + error :=
  match v with
  | ASlice [AMap kvs; AString name; ASlice args] =>
      match mapM header_entry kvs with
      | Some h =>
          let hdr : gmap string any := list_to_map h in
          if bool_decide (is_Some (hdr !! "message_id"))
          then inl (mkEvent hdr name (slice_of args))
          else inr DecodeError
      | None => inr DecodeError
      end
  | _ => inr DecodeError
  end.

(** A valid event has a [message_id], carries values of the codec's
    value space only, and has an allocated argument sequence. *)
Definition valid (e : Event) : Prop :=
  is_Some (Header e !! "message_id") ∧
  map_Forall (λ _ v, wire_value v = true) (Header e) ∧
  ∃ args, Args e = slice_of args ∧ Forall (λ v, wire_value v = true) args.

Section Bytes.

(** The serialisation of values to bytes is the work of a library
    outside the repository; the codec is stated over any such
    pair of functions. *)
Variable marshal : any → list byte.
Variable unmarshal : list byte → option any.

(** Modelled from the spec: [encode(Event) -> bytes]. *)
Definition encode (e : Event) : list byte := marshal (envelope e).

(** Modelled from the spec: [decode(bytes) -> Event], failing with
    [DecodeError]. *)
Definition decode (bs : list byte) : Event + error :=
  match unmarshal bs with
  | Some v => open_envelope v
  | None => inr DecodeError
  end.

End Bytes.

End EventCodec.

(** ** A byte format for the codec's value space

    One serialiser of the kind [EventCodec.encode] and
    [EventCodec.decode] are stated over: self-delimiting, with a tag
    byte per value. *)

Module Wire.

(** Natural numbers in unary, closed by a zero byte. *)
Fixpoint put_nat (n : nat) : list byte :=
  match n with
  | O => [x00]
  | S n => x01 :: put_nat n
  end.

Fixpoint get_nat (bs : list byte) : option (nat * list byte) :=
  match bs with
  | x00 :: r => Some (O, r)
  | x01 :: r => '(n, r') ← get_nat r; Some (S n, r')
  | _ => None
  end.

(** Integers: a sign byte, then the magnitude. *)
Definition put_Z (z : Z) : list byte :=
  (if z <? 0 then x01 else x00) :: put_nat (Z.abs_nat z).

Definition get_Z (bs : list byte) : option (Z * list byte) :=
  match bs with
  | x00 :: r => '(n, r') ← get_nat r; Some (Z.of_nat n, r')
  | x01 :: r => '(n, r') ← get_nat r; Some (- Z.of_nat n, r')
  | _ => None
  end.

(** Byte strings: the length, then the bytes. *)
Definition put_bytes (bs : list byte) : list byte :=
  put_nat (length bs) ++ bs.

Definition get_bytes (bs : list byte) : option (list byte * list byte) :=
  '(n, r) ← get_nat bs;
  if decide (n ≤ length r)%nat then Some (take n r, drop n r) else None.

(** A tag byte, then the payload; sequences and mappings give their
    length first. Values outside the codec's value space are written
    as nil. *)
Fixpoint marshal (v : any) : list byte :=
  match v with
  | AInt64 z => x03 :: put_Z z
  | AFloat64 b => x04 :: put_Z b
  | AString s => x05 :: put_bytes (String.list_byte_of_string s)
  | ABytes bs => x06 :: put_bytes bs
  | ASlice l => x07 :: put_nat (length l) ++ concat (map marshal l)
  | AMap kvs =>
      x08 :: put_nat (length kvs)
          ++ concat (map (λ kv, marshal kv.1 ++ marshal kv.2) kvs)
  | _ => [x00]
  end.

(** [n] items read with the parser [p]. *)
Fixpoint get_items {A} (p : list byte → option (A * list byte))
    (n : nat) (bs : list byte) : option (list A * list byte) :=
  match n with
  | O => Some ([], bs)
  | S n =>
      '(x, r) ← p bs;
      '(xs, r') ← get_items p n r;
      Some (x :: xs, r')
  end.

Fixpoint unmarshal_at (fuel : nat) (bs : list byte)
    : option (any * list byte) :=
  match fuel with
  | O => None
  | S fuel =>
      match bs with
      | x00 :: r => Some (ANil, r)
      | x03 :: r => '(z, r') ← get_Z r; Some (AInt64 z, r')
      | x04 :: r => '(z, r') ← get_Z r; Some (AFloat64 z, r')
      | x05 :: r =>
          '(s, r') ← get_bytes r;
          Some (AString (String.string_of_list_byte s), r')
      | x06 :: r => '(s, r') ← get_bytes r; Some (ABytes s, r')
      | x07 :: r =>
          '(n, r') ← get_nat r;
          '(l, r'') ← get_items (unmarshal_at fuel) n r';
          Some (ASlice l, r'')
      | x08 :: r =>
          '(n, r') ← get_nat r;
          '(l, r'') ←
            get_items (λ bs, '(k, r1) ← unmarshal_at fuel bs;
                             '(v, r2) ← unmarshal_at fuel r1;
                             Some ((k, v), r2)) n r';
          Some (AMap l, r'')
      | _ => None
      end
  end.

(** The whole input must be one value; its nesting is no deeper than
    its length. *)
Definition unmarshal (bs : list byte) : option any :=
  match unmarshal_at (length bs) bs with
  | Some (v, []) => Some v
  | _ => None
  end.

End Wire.

(** ** The task registry *)

Module Server.

(** A task handler: given the ordered args, a result value and an
    optional error. *)
Definition handler : Type := slice any → any * option error.

(** Modelled from the spec: the server's task registry, a mapping
    from names to handlers ([server.go] is not among the sources). *)
Record Server : Type := mkServer {
  handlers : gmap string handler
}.

(** Modelled from the spec: [RegisterTask(name, handler)] fails with
    [DuplicateTaskError] if [name] is already registered. *)
Definition RegisterTask (name : string) (h : handler) (s : Server)
  : option error * Server :=
  match handlers s !! name with
  | Some _ => (Some DuplicateTaskError, s)
  | None => (None, {| handlers := <[name := h]> (handlers s) |})
  end.

End Server.

(** ** A concrete setting for worked examples *)

Module Scenario.

(** Stand-ins for the collaborators of the client: an event factory
    that always draws the message id ["m1"], a multiplexer that
    registers the channel under the id it is given (["m1"] for a new
    exchange), and a send that starts the heartbeat and succeeds. *)
Definition newEvent_m1 (name : string) (args : slice any) : Event + error :=
  inl {| Header := {["message_id" := AString "m1"]};
         Name := name; Args := args |}.

Definition newChannel_m1 (id : string) (s : socket) : ChanId * socket :=
  let ch := if decide (id = "") then "m1" else id in
  (ch, {| chans := <[ch := mkChannel Idle [] [] 0 false]> (chans s);
          open := {[ch]} ∪ open s |}).

Definition start (c : channel) : channel :=
  {| state := Sent; queue := queue c; errslot := errslot c;
     last_seen := last_seen c; heartbeat_on := true |}.

Definition sendEvent_ok (ch : ChanId) (ev : Event) (s : socket)
  : option error * socket :=
  (None, {| chans := alter start ch (chans s); open := open s |}).

(** A send that fails in the transport. *)
Definition sendEvent_fails (ch : ChanId) (ev : Event) (s : socket)
  : option error * socket :=
  (Some (ErrOther "send failed"), s).

Definition healthy : Runtime :=
  {| newEvent := newEvent_m1; newChannel := newChannel_m1;
     sendEvent := sendEvent_ok |}.

Definition broken : Runtime :=
  {| newEvent := newEvent_m1; newChannel := newChannel_m1;
     sendEvent := sendEvent_fails |}.

Definition w0 : world :=
  {| sock := {| chans := ∅; open := ∅ |}; heap := ∅ |}.

(** The args of the tests' call [Invoke("hello", "World")]. *)
Definition hello : slice any := slice_of [AString "World"].

(** The socket once a call made in [w0] has sent its event. *)
Definition sent_socket : socket :=
  {| chans := {["m1" := mkChannel Sent [] [] 0 true]}; open := {["m1"]} |}.

(** A channel that last heard from the remote at second 1 and has
    nothing queued, and a socket tracking it. *)
Definition silent : channel := mkChannel Sent [] [] (1 * Second) true.

Definition silent_socket : socket :=
  {| chans := {["m1" := silent]}; open := {["m1"]} |}.

(** A reply event with one integer argument. *)
Definition reply_event (name : string) (n : Z) : Event :=
  {| Header := {["message_id" := AString "r"; "response_to" := AString "m1"]};
     Name := name; Args := slice_of [AInt64 n] |}.

(** [type reply struct { Word string }] and a heap holding one such
    record at address 1. *)
Definition reply_type : list (string * bool * type) :=
  [("Word", true, TString)].

Definition w1 : world :=
  {| sock := sock w0;
     heap := {[ 1%positive := AStruct reply_type [AString ""] ]} |}.

End Scenario.

(** ** What the field loop of [InvokeReply] computes *)

Module Reply.

(** Whether the loop body gets through a field with the reply arg at
    its index: a settable field of kind Int needs an [int64], one of
    kind String a [string]; any other field takes whatever is there. *)
Definition accepts (f : string * bool * type) (r : any) : bool :=
  if f.1.2 then
    match kind_of f.2, r with
    | reflect.Int, AInt64 _ => true
    | reflect.Int, _ => false
    | reflect.String, AString _ => true
    | reflect.String, _ => false
    | _, _ => true
    end
  else true.

(** The value a field holds after the loop body: the arg, for a settable
    field of kind Int or String; the old value [v] otherwise. *)
Definition assign (f : string * bool * type) (r v : any) : any :=
  if f.1.2 then
    match kind_of f.2, r with
    | reflect.Int, AInt64 z => AInt z
    | reflect.String, AString s => AString s
    | _, _ => v
    end
  else v.

(** The panic of the type assertion in the loop body. *)
Definition rejection (f : string * bool * type) : string :=
  match kind_of f.2 with
  | reflect.Int => "interface conversion: interface {} is not int64"
  | _ => "interface conversion: interface {} is not string"
  end.

(** The record after the loop has visited the fields [fs] with the args
    [rs]; values beyond the visited fields stay. *)
Fixpoint fill (fs : list (string * bool * type)) (rs vs : list any)
    : list any :=
  match fs, rs, vs with
  | f :: fs, r :: rs, v :: vs => assign f r v :: fill fs rs vs
  | _, _, _ => vs
  end.

(** The heap [h'] differs from [h] at most in the values of the fields
    of a record at [a]. *)
Definition keeps (a : addr) (h h' : gmap addr any) : Prop :=
  (∀ b, b ≠ a → h' !! b = h !! b)
  ∧ match h !! a with
    | Some (AStruct fs vals) =>
        ∃ vals', h' !! a = Some (AStruct fs vals')
                 ∧ length vals' = length vals
    | x => h' !! a = x
    end.

End Reply.

(** ** More records for worked examples *)

Module Fixture.

(** [type entry struct { Count int; Word string; note string; Size int64 }]
    and a heap with one such record at address 2, next to the record of
    [Scenario.w1]. *)
Definition entry_type : list (string * bool * type) :=
  [("Count", true, TInt); ("Word", true, TString);
   ("note", false, TString); ("Size", true, TInt64)].

Definition entry_vals : list any :=
  [AInt 0; AString ""; AString "keep"; AInt64 9].

Definition w2 : world :=
  {| sock := sock Scenario.w0;
     heap := {[ 1%positive := AStruct Scenario.reply_type [AString ""];
                2%positive := AStruct entry_type entry_vals ]} |}.

(** A reply with four args that fit the record, and one whose second
    arg does not. *)
Definition fitting : slice any :=
  slice_of [AInt64 7; AString "seven"; AString "x"; AInt64 1].

Definition unfitting : slice any :=
  slice_of [AInt64 7; AInt64 8; AString "x"; AInt64 1].

Definition ok_event (args : slice any) : Event :=
  {| Header := ∅; Name := "OK"; Args := args |}.

End Fixture.

(** * Properties *)

(** ** Running the invokers *)

Section InvokerFacts.

Context {rt : Runtime}.

(** After a successful setup a call is its select loop, run under
    the deferred close. *)
Lemma Invoke_sent name args ds w ch s :
  sent name args w ch s →
  Invoke name args ds w
  = defer (close ch) (Invoke_select ds) {| sock := s; heap := heap w |}.
Proof.
  intros (ev & Hev & -> & Hsend).
  unfold Invoke. rewrite Hev.
  unfold mbind, M_bind, bind, on_sock, defer.
  destruct (newChannel "" (sock w)) as [ch s1]. simpl in *.
  rewrite Hsend. reflexivity.
Qed.

Lemma InvokeStream_sent name args ds w ch s :
  sent name args w ch s →
  InvokeStream name args ds w
  = defer (close ch) (InvokeStream_select (slice_of []) ds)
      {| sock := s; heap := heap w |}.
Proof.
  intros (ev & Hev & -> & Hsend).
  unfold InvokeStream. rewrite Hev.
  unfold mbind, M_bind, bind, on_sock, defer.
  destruct (newChannel "" (sock w)) as [ch s1]. simpl in *.
  rewrite Hsend. reflexivity.
Qed.

(** The select loops leave the world as it is. *)
Lemma Invoke_select_world ds w : (Invoke_select ds w).2 = w.
Proof.
  destruct ds as [|[response|err] ds]; simpl; try reflexivity.
  destruct (String.eqb _ _); reflexivity.
Qed.

(** A run of STREAM events is folded into the accumulator. *)
Lemma InvokeStream_select_streams streams : ∀ out ds w,
  Forall (λ e, Name e = "STREAM") streams →
  InvokeStream_select (slice_of out) ((Output <$> streams) ++ ds) w
  = InvokeStream_select (slice_of (out ++ (Args <$> streams))) ds w.
Proof.
  induction streams as [|e streams IH]; intros out ds w Hs; simpl.
  - by rewrite app_nil_r.
  - inversion Hs as [|? ? He Hs']; subst. rewrite He. simpl.
    unfold append. simpl. rewrite IH by done.
    by rewrite <- app_assoc.
Qed.

(** C1. When [Invoke] receives an event on its channel's queue, it
    returns the event's args; the error is built from those args if
    the event is named "ERR" and is nil for any other name. *)
Theorem Invoke_reply name args response ds w ch s :
  sent name args w ch s →
  (Name response = "ERR" →
   (Invoke name args (Output response :: ds) w).1
   = Return (Args response, Some (Errorf_s (Args response))))
  ∧ (Name response ≠ "ERR" →
     (Invoke name args (Output response :: ds) w).1
     = Return (Args response, None)).
Proof.
  intros Hsent. rewrite (Invoke_sent _ _ _ _ _ _ Hsent).
  unfold defer. simpl.
  destruct (String.eqb_spec (Name response) "ERR") as [He|He];
    split; intros H; done.
Qed.

(** C2. [InvokeStream] appends the args of every "STREAM" event and
    goes on waiting; an "OK" event is appended and ends the call with
    a nil error, an "ERR" event is appended and ends it with an error
    built from its args. STREAM(1), STREAM(2), OK(3) gives
    [[1],[2],[3]] and no error; with ERR(3) instead, the same
    sequence and an error. *)
Theorem InvokeStream_accumulates name args streams last ds w ch s :
  sent name args w ch s →
  Forall (λ e, Name e = "STREAM") streams →
  (InvokeStream name args (Output <$> streams) w).1 = Blocked
  ∧ (Name last = "OK" →
     (InvokeStream name args ((Output <$> streams) ++ Output last :: ds) w).1
     = Return (slice_of ((Args <$> streams) ++ [Args last]), None))
  ∧ (Name last = "ERR" →
     (InvokeStream name args ((Output <$> streams) ++ Output last :: ds) w).1
     = Return (slice_of ((Args <$> streams) ++ [Args last]),
               Some (Errorf_s (Args last))))
  ∧ (∀ h1 h2 h3,
      (InvokeStream name args
         [Output (mkEvent h1 "STREAM" (slice_of [AInt64 1]));
          Output (mkEvent h2 "STREAM" (slice_of [AInt64 2]));
          Output (mkEvent h3 "OK" (slice_of [AInt64 3]))] w).1
      = Return (slice_of [slice_of [AInt64 1]; slice_of [AInt64 2];
                          slice_of [AInt64 3]], None)
      ∧ (InvokeStream name args
           [Output (mkEvent h1 "STREAM" (slice_of [AInt64 1]));
            Output (mkEvent h2 "STREAM" (slice_of [AInt64 2]));
            Output (mkEvent h3 "ERR" (slice_of [AInt64 3]))] w).1
        = Return (slice_of [slice_of [AInt64 1]; slice_of [AInt64 2];
                            slice_of [AInt64 3]],
                  Some (Errorf_s (slice_of [AInt64 3])))).
Proof.
  intros Hsent Hs.
  assert (∀ ds',
    InvokeStream name args ((Output <$> streams) ++ ds') w
    = defer (close ch)
        (InvokeStream_select (slice_of (Args <$> streams)) ds')
        {| sock := s; heap := heap w |}) as Hrun.
  { intros ds'. rewrite (InvokeStream_sent _ _ _ _ _ _ Hsent).
    unfold defer. by rewrite InvokeStream_select_streams. }
  split; [|split; [|split]].
  - rewrite <- (app_nil_r (Output <$> streams)). by rewrite Hrun.
  - intros Hok. rewrite Hrun. unfold defer. simpl. by rewrite Hok.
  - intros Herr. rewrite Hrun. unfold defer. simpl. by rewrite Herr.
  - intros h1 h2 h3.
    split; by rewrite (InvokeStream_sent _ _ _ _ _ _ Hsent).
Qed.

(** C4. An error taken from the channel's error slot ends [Invoke]
    and [InvokeStream] at once with that error and a nil result; what
    [InvokeStream] had accumulated is dropped. *)
Theorem Invoke_error_slot name args streams err ds w ch s :
  sent name args w ch s →
  Forall (λ e, Name e = "STREAM") streams →
  (Invoke name args (ChanErr err :: ds) w).1
  = Return (nil_slice, Some err)
  ∧ (InvokeStream name args ((Output <$> streams) ++ ChanErr err :: ds) w).1
    = Return (nil_slice, Some err).
Proof.
  intros Hsent Hs.
  rewrite (Invoke_sent _ _ _ _ _ _ Hsent),
    (InvokeStream_sent _ _ _ _ _ _ Hsent).
  unfold defer. rewrite InvokeStream_select_streams by done.
  split; reflexivity.
Qed.

(** C5. An event whose name is none of "STREAM", "OK" and "ERR" ends
    [InvokeStream] with the accumulator as it stands and a nil error;
    the event's args are not appended. *)
Theorem InvokeStream_other_name name args streams other ds w ch s :
  sent name args w ch s →
  Forall (λ e, Name e = "STREAM") streams →
  Name other ≠ "STREAM" → Name other ≠ "OK" → Name other ≠ "ERR" →
  (InvokeStream name args ((Output <$> streams) ++ Output other :: ds) w).1
  = Return (slice_of (Args <$> streams), None).
Proof.
  intros Hsent Hs H1 H2 H3.
  rewrite (InvokeStream_sent _ _ _ _ _ _ Hsent).
  unfold defer. rewrite InvokeStream_select_streams by done. simpl.
  destruct (String.eqb_spec (Name other) "ERR"); [done|].
  destruct (String.eqb_spec (Name other) "OK"); [done|].
  destruct (String.eqb_spec (Name other) "STREAM"); done.
Qed.

Lemma close_closed ch s : closed ch (close ch s).
Proof.
  split; simpl.
  - intros [_ H]%elem_of_difference. apply H. by apply elem_of_singleton.
  - intros c. rewrite lookup_alter_eq.
    destruct (chans s !! ch); simpl; [|done]. by intros [= <-].
Qed.

(** C8. Whenever [Invoke] or [InvokeStream] returns after opening
    its channel (send failure, "ERR" or "OK" reply, stream terminal,
    error from the error slot), the channel is closed: its heartbeat
    timer is stopped and the multiplexer no longer lists it. *)
Theorem Invoke_closes_channel name args ds w ev :
  newEvent name args = inl ev →
  (∀ r w', Invoke name args ds w = (Return r, w') →
           closed (newChannel "" (sock w)).1 (sock w'))
  ∧ (∀ r w', InvokeStream name args ds w = (Return r, w') →
             closed (newChannel "" (sock w)).1 (sock w')).
Proof.
  intros Hev. split; intros r w';
    unfold Invoke, InvokeStream; rewrite Hev;
    unfold mbind, M_bind, bind, on_sock, defer;
    destruct (newChannel "" (sock w)) as [ch s1]; simpl;
    destruct (sendEvent ch ev s1) as [[err|] s2]; simpl.
  - intros [= <- <-]. apply close_closed.
  - destruct (Invoke_select ds _) as [[a| |msg] w2]; intros [= <- <-].
    apply close_closed.
  - intros [= <- <-]. apply close_closed.
  - destruct (InvokeStream_select _ ds _) as [[a| |msg] w2];
      intros [= <- <-]. apply close_closed.
Qed.

(** [Invoke] does not touch the heap. *)
Lemma Invoke_heap name args ds w :
  heap (Invoke name args ds w).2 = heap w.
Proof.
  unfold Invoke. destruct (newEvent name args) as [ev|err]; [|done].
  unfold mbind, M_bind, bind, on_sock, defer.
  destruct (newChannel "" (sock w)) as [ch s1]; simpl.
  destruct (sendEvent ch ev s1) as [[err|] s2]; simpl; [done|].
  pose proof (Invoke_select_world ds {| sock := s2; heap := heap w |}) as Hw.
  destruct (Invoke_select ds _) as [[a| |msg] w2]; simpl in *; by subst.
Qed.

(** C9. Given a pointer to a struct whose number of fields differs
    from the number of args of a successful reply, [InvokeReply]
    returns a nil error and writes nothing: the heap is as it was
    before the call. *)
Theorem InvokeReply_arity_mismatch name fs target args ds w reply_args w' :
  Invoke name args ds w = (Return (reply_args, None), w') →
  length fs ≠ len reply_args →
  InvokeReply name
    (APtr (TStruct fs) target) args ds w = (Return None, w')
  ∧ heap w' = heap w.
Proof.
  intros Hinv Hlen. split.
  - unfold InvokeReply, mbind, M_bind, bind. simpl.
    destruct target as [a|]; simpl; rewrite Hinv; simpl;
      by rewrite bool_decide_eq_false_2.
  - pose proof (Invoke_heap name args ds w) as H. by rewrite Hinv in H.
Qed.

(** [InvokeReply] never reaches its "reply must be pointer" error:
    for every [reply] that is not a pointer, the call panics in
    [reflect.ValueOf(reply).Elem()], before anything else is done. *)
Lemma InvokeReply_non_pointer name reply args ds w :
  match reply with
  | APtr _ _ => True
  | _ =>
      InvokeReply name reply args ds w
      = (Panic "reflect: call of reflect.Value.Elem on non-pointer Value", w)
  end.
Proof. destruct reply; done. Qed.

End InvokerFacts.

(** ** The heartbeat sweep *)

Lemma sweep_lookup now s ch c :
  chans s !! ch = Some c →
  chans (sweep now s) !! ch
  = Some (if bool_decide (ch ∈ open s) && stale now c then lose c else c).
Proof. intros H. unfold sweep. simpl. by rewrite map_lookup_imap, H. Qed.

(** C7. An open channel that has received nothing for longer than the
    liveness threshold 2H (10 seconds, H being 5 seconds) is marked
    lost by the sweep and gets [ErrLostRemote] in its error slot; an
    [Invoke] or [InvokeStream] waiting on it, with nothing else to
    take, then returns [ErrLostRemote]. *)
Theorem sweep_lost_remote now s ch c :
  ch ∈ open s → chans s !! ch = Some c →
  queue c = [] → errslot c = [] →
  liveness_threshold < now - last_seen c →
  liveness_threshold = 10 * Second
  ∧ ∃ c', chans (sweep now s) !! ch = Some c'
      ∧ state c' = Lost
      ∧ ready c' (ChanErr ErrLostRemote)
      ∧ ∀ d, ready c' d →
          d = ChanErr ErrLostRemote
          ∧ ∀ out ds w,
              Invoke_select (d :: ds) w
              = (Return (nil_slice, Some ErrLostRemote), w)
              ∧ InvokeStream_select out (d :: ds) w
                = (Return (nil_slice, Some ErrLostRemote), w).
Proof.
  intros Hopen Hc Hq He Hold. split; [reflexivity|].
  exists (lose c). split.
  - rewrite (sweep_lookup _ _ _ _ Hc). unfold stale.
    by rewrite !bool_decide_eq_true_2.
  - split; [reflexivity|]. split.
    + apply ready_error with (es := []). simpl. by rewrite He.
    + intros d Hd.
      assert (d = ChanErr ErrLostRemote) as ->.
      { inversion Hd as [ev q Hq'|err es He']; simpl in *.
        - congruence.
        - rewrite He in He'. by injection He' as <- _. }
      split; [reflexivity|]. intros out ds w. split; reflexivity.
Qed.

(** ** The task registry *)

(** C6. Registering a task under a name already registered fails with
    [DuplicateTaskError] and leaves the registry as it was; under a
    fresh name it succeeds and binds the name to the handler. So
    registering "hello" twice fails the second time. *)
Theorem RegisterTask_duplicate name h h' (s : Server.Server) :
  (is_Some (Server.handlers s !! name) →
   Server.RegisterTask name h s = (Some DuplicateTaskError, s))
  ∧ (Server.handlers s !! name = None →
     ∃ s', Server.RegisterTask name h s = (None, s')
           ∧ Server.handlers s' = <[name := h]> (Server.handlers s))
  ∧ (let s1 := (Server.RegisterTask "hello" h s).2 in
     Server.RegisterTask "hello" h' s1 = (Some DuplicateTaskError, s1)).
Proof.
  unfold Server.RegisterTask. split; [|split].
  - by intros [h0 ->].
  - intros ->. eauto.
  - destruct (Server.handlers s !! "hello") as [h0|] eqn:Hh; simpl.
    + by rewrite Hh.
    + by rewrite lookup_insert_eq.
Qed.

(** ** The event codec *)

Section CodecFacts.

Import EventCodec.

Lemma forallb_Forall_true {A} (f : A → bool) l :
  forallb f l = true ↔ Forall (λ x, f x = true) l.
Proof.
  induction l as [|x l IH]; simpl.
  - split; [constructor|done].
  - rewrite andb_true_iff, Forall_cons. by rewrite IH.
Qed.

(** The envelope of a valid event lies in the codec's value space. *)
Lemma envelope_wire_value e : valid e → wire_value (envelope e) = true.
Proof.
  intros (_ & Hh & args & Ha & Hargs). unfold envelope. rewrite Ha.
  simpl. rewrite andb_true_r. apply andb_true_iff. split.
  - apply forallb_Forall_true, Forall_fmap, Forall_forall.
    intros [k v] Hkv%elem_of_map_to_list. simpl.
    apply (Hh k v Hkv).
  - by apply forallb_Forall_true.
Qed.

(** Reading back the envelope of a valid event gives the event. *)
Lemma open_envelope_envelope e : valid e → open_envelope (envelope e) = inl e.
Proof.
  intros (Hid & _ & args & Ha & _). destruct e as [hdr name a].
  simpl in *. subst a. unfold envelope, open_envelope. simpl.
  rewrite mapM_fmap_Some by (by intros [k v]).
  rewrite list_to_map_to_list. by rewrite bool_decide_eq_true_2.
Qed.

Variable marshal : any → list byte.
Variable unmarshal : list byte → option any.

(** C3. For every valid event [e], decoding the encoding of [e]
    gives [e] back: header fields, name, and the args in their order
    and with their types. The byte serialiser is any one that reads
    back what it writes on the codec's value space. *)
Theorem decode_encode e :
  (∀ v, wire_value v = true → unmarshal (marshal v) = Some v) →
  valid e →
  decode unmarshal (encode marshal e) = inl e.
Proof.
  intros Hbytes He. unfold decode, encode.
  rewrite Hbytes by by apply envelope_wire_value.
  by apply open_envelope_envelope.
Qed.

End CodecFacts.

(** ** The byte format reads back what it writes *)

Section WireFacts.

Import EventCodec Wire.

Lemma get_put_nat n r : get_nat (put_nat n ++ r) = Some (n, r).
Proof. induction n as [|n IH]; simpl; [done|]. by rewrite IH. Qed.

Lemma get_put_Z z r : get_Z (put_Z z ++ r) = Some (z, r).
Proof.
  unfold put_Z, get_Z. destruct (Z.ltb_spec z 0); simpl;
    rewrite get_put_nat; simpl; do 2 f_equal; lia.
Qed.

Lemma get_put_bytes bs r : get_bytes (put_bytes bs ++ r) = Some (bs, r).
Proof.
  unfold put_bytes, get_bytes. rewrite <- app_assoc, get_put_nat. simpl.
  rewrite decide_True by (rewrite length_app; lia).
  by rewrite take_app_length, drop_app_length.
Qed.

(** Items written one after the other are read back by [get_items],
    provided each of them is. *)
Lemma get_items_concat {A} (p : list byte → option (A * list byte))
    (put : A → list byte) (l : list A) r :
  Forall (λ x, ∀ r, p (put x ++ r) = Some (x, r)) l →
  get_items p (length l) (concat (map put l) ++ r) = Some (l, r).
Proof.
  induction 1 as [|x l Hx _ IH]; simpl; [done|].
  by rewrite <- app_assoc, Hx; simpl; rewrite IH.
Qed.

Lemma length_concat_le {A} (put : A → list byte) (l : list A) x :
  x ∈ l → (length (put x) ≤ length (concat (map put l)))%nat.
Proof.
  induction 1 as [x l|x y l _ IH]; simpl; rewrite length_app; lia.
Qed.

(** Induction over the codec's value space, with the hypothesis for
    every element of a sequence and every key and value of a
    mapping. *)
Lemma wire_value_ind (P : any → Prop) :
  (∀ z, P (AInt64 z)) → (∀ b, P (AFloat64 b)) →
  (∀ s, P (AString s)) → (∀ bs, P (ABytes bs)) →
  (∀ l, Forall P l → P (ASlice l)) →
  (∀ kvs, Forall (λ kv, P kv.1 ∧ P kv.2) kvs → P (AMap kvs)) →
  ∀ v, wire_value v = true → P v.
Proof.
  intros Hi Hf Hs Hb Hl Hm. fix IH 1.
  intros [| | | | | | |l|kvs| |]; simpl; intros Hv; try done.
  - apply Hl. induction l as [|x l IHl]; [constructor|].
    simpl in Hv. apply andb_true_iff in Hv as [Hx Hv].
    constructor; [by apply IH|by apply IHl].
  - apply Hm. induction kvs as [|[k x] kvs IHl]; [constructor|].
    simpl in Hv. apply andb_true_iff in Hv as [Hx Hv].
    apply andb_true_iff in Hx as [Hk Hx].
    constructor; [split; by apply IH|by apply IHl].
Qed.

Lemma unmarshal_at_marshal v :
  wire_value v = true →
  ∀ fuel r, (length (marshal v) ≤ fuel)%nat →
            unmarshal_at fuel (marshal v ++ r) = Some (v, r).
Proof.
  revert v. apply (wire_value_ind (λ v, ∀ fuel r, _ → _));
    [intros z|intros z|intros s|intros bs|intros l IH|intros kvs IH];
    intros [|fuel] r Hfuel; simpl in Hfuel; try lia;
    cbn -[put_Z get_Z put_bytes get_bytes].
  - by rewrite get_put_Z.
  - by rewrite get_put_Z.
  - rewrite get_put_bytes. simpl.
    by rewrite String.string_of_list_byte_of_string.
  - by rewrite get_put_bytes.
  - rewrite <- app_assoc, get_put_nat. simpl.
    rewrite (get_items_concat _ marshal); [done|].
    apply Forall_forall. intros x Hx r'.
    apply (proj1 (Forall_forall _ _) IH x Hx).
    pose proof (length_concat_le marshal l x Hx).
    rewrite length_app in Hfuel. lia.
  - rewrite <- app_assoc, get_put_nat. simpl.
    rewrite (get_items_concat _ (λ kv, marshal kv.1 ++ marshal kv.2));
      [done|].
    apply Forall_forall. intros [k x] Hx r'. simpl.
    destruct (proj1 (Forall_forall _ _) IH _ Hx) as [Hk Hv]. simpl in *.
    pose proof (length_concat_le (λ kv, marshal kv.1 ++ marshal kv.2)
                  kvs _ Hx) as Hle.
    simpl in Hle. rewrite !length_app in *.
    rewrite <- app_assoc, Hk by lia. simpl.
    rewrite Hv by lia. done.
Qed.

(** [Wire.unmarshal] reads back every value of the codec's value
    space written by [Wire.marshal]. *)
Lemma unmarshal_marshal v :
  wire_value v = true → unmarshal (marshal v) = Some v.
Proof.
  intros Hv. unfold unmarshal.
  rewrite <- (app_nil_r (marshal v)) at 2.
  by rewrite unmarshal_at_marshal.
Qed.

End WireFacts.

(** ** Worked examples *)

Section Examples.

Import Scenario.

Local Existing Instance healthy.

Lemma scenario_sent name args : sent name args w0 "m1" sent_socket.
Proof. eexists. split; [reflexivity|]. split; reflexivity. Qed.

Lemma Invoke_reply_witness :
  (Invoke "hello" hello
     [Output (reply_event "ERR" 7)] w0).1
  = Return (slice_of [AInt64 7], Some (Errorf_s (slice_of [AInt64 7])))
  ∧ (Invoke "hello" hello
       [Output (reply_event "OK" 7)] w0).1
    = Return (slice_of [AInt64 7], None).
Proof.
  split.
  - apply (Invoke_reply (rt := healthy) "hello" hello
             (reply_event "ERR" 7) [] w0 _ _ (scenario_sent _ _)).
    reflexivity.
  - apply (Invoke_reply (rt := healthy) "hello" hello
             (reply_event "OK" 7) [] w0 _ _ (scenario_sent _ _)).
    discriminate.
Defined.

Lemma InvokeStream_accumulates_witness :
  (InvokeStream "range" hello
     ((Output <$> [reply_event "STREAM" 10; reply_event "STREAM" 12])
      ++ [Output (reply_event "ERR" 14)]) w0).1
  = Return (slice_of ((Args <$> [reply_event "STREAM" 10;
                                 reply_event "STREAM" 12])
                      ++ [Args (reply_event "ERR" 14)]),
            Some (Errorf_s (Args (reply_event "ERR" 14)))).
Proof.
  destruct (InvokeStream_accumulates (rt := healthy) "range"
              hello [reply_event "STREAM" 10; reply_event "STREAM" 12]
              (reply_event "ERR" 14) [] w0 _ _ (scenario_sent _ _))
    as (_ & _ & Herr & _).
  - repeat constructor.
  - apply Herr. reflexivity.
Defined.

Lemma Invoke_error_slot_witness :
  (Invoke "range" hello
     [ChanErr ErrLostRemote] w0).1
  = Return (nil_slice, Some ErrLostRemote)
  ∧ (InvokeStream "range" hello
       ((Output <$> [reply_event "STREAM" 1]) ++ [ChanErr ErrLostRemote])
       w0).1
    = Return (nil_slice, Some ErrLostRemote).
Proof.
  apply (Invoke_error_slot (rt := healthy) "range" hello
           [reply_event "STREAM" 1] ErrLostRemote [] w0 _ _
           (scenario_sent _ _)).
  repeat constructor.
Defined.

Lemma InvokeStream_other_name_witness :
  (InvokeStream "range" hello
     ((Output <$> [reply_event "STREAM" 1])
      ++ [Output (reply_event "DONE" 2)]) w0).1
  = Return (slice_of (Args <$> [reply_event "STREAM" 1]), None).
Proof.
  apply (InvokeStream_other_name (rt := healthy) "range"
           hello [reply_event "STREAM" 1] (reply_event "DONE" 2) [] w0
           _ _ (scenario_sent _ _)); [repeat constructor|..]; discriminate.
Defined.

Lemma Invoke_closes_channel_witness :
  closed "m1"
    (sock (Invoke (rt := broken) "hello" hello
             [] w0).2)
  ∧ closed "m1"
      (sock (InvokeStream "range" hello
               [Output (reply_event "STREAM" 1);
                Output (reply_event "OK" 2)] w0).2).
Proof.
  split.
  - apply (proj1 (Invoke_closes_channel (rt := broken) "hello" hello []
                    w0 _ eq_refl)
             (nil_slice, Some (ErrOther "send failed"))).
    reflexivity.
  - apply (proj2 (Invoke_closes_channel (rt := healthy) "range" hello
                    [Output (reply_event "STREAM" 1);
                     Output (reply_event "OK" 2)] w0 _ eq_refl)
             (slice_of [slice_of [AInt64 1]; slice_of [AInt64 2]], None)).
    reflexivity.
Defined.

Lemma InvokeReply_arity_mismatch_witness :
  let reply_args := slice_of [AString "Hello,World"; AInt64 2] in
  let w' := (Invoke "hello" hello
               [Output (mkEvent ∅ "OK" reply_args)] w1).2 in
  InvokeReply "hello"
    (APtr (TStruct reply_type) (Some 1%positive)) hello
    [Output (mkEvent ∅ "OK" reply_args)] w1
  = (Return None, w')
  ∧ heap w' = heap w1.
Proof.
  intros reply_args w'.
  apply (InvokeReply_arity_mismatch (rt := healthy) "hello"
           reply_type (Some 1%positive) hello _ w1 reply_args w').
  - reflexivity.
  - discriminate.
Defined.

Lemma sweep_lost_remote_witness :
  ∃ c', chans (sweep (12 * Second) silent_socket) !! "m1" = Some c'
        ∧ state c' = Lost
        ∧ ready c' (ChanErr ErrLostRemote).
Proof.
  destruct (sweep_lost_remote (12 * Second) silent_socket "m1" silent)
    as (_ & c' & Hc' & Hst & Hr & _).
  - simpl. by apply elem_of_singleton_2.
  - simpl. by apply lookup_singleton_eq.
  - reflexivity.
  - reflexivity.
  - vm_compute. reflexivity.
  - by exists c'.
Defined.

Lemma RegisterTask_duplicate_witness :
  let h : Server.handler := λ v, (AString "Hello", None) in
  let s := Server.mkServer {["hello" := h]} in
  Server.RegisterTask "hello" h s = (Some DuplicateTaskError, s)
  ∧ ∃ s', Server.RegisterTask "bye" h s = (None, s')
          ∧ Server.handlers s' = <["bye" := h]> (Server.handlers s).
Proof.
  intros h s. split.
  - destruct (RegisterTask_duplicate "hello" h h s) as (Hdup & _).
    apply Hdup. simpl. rewrite lookup_singleton_eq. by eexists.
  - destruct (RegisterTask_duplicate "bye" h h s) as (_ & Hfresh & _).
    apply Hfresh. simpl. by apply lookup_singleton_ne.
Defined.

Lemma decode_encode_witness :
  EventCodec.decode Wire.unmarshal
    (EventCodec.encode Wire.marshal (reply_event "OK" 3))
  = inl (reply_event "OK" 3).
Proof.
  apply (decode_encode Wire.marshal Wire.unmarshal (reply_event "OK" 3)
           unmarshal_marshal).
  split; [|split].
  - simpl. rewrite lookup_insert_eq. by eexists.
  - simpl. apply map_Forall_insert_2; [reflexivity|].
    apply map_Forall_insert_2; [reflexivity|]. apply map_Forall_empty.
  - eexists. split; [reflexivity|]. repeat constructor.
Defined.

(** The repository's tests, replayed on the embedding with the reply
    the "hello" task sends: [TestRequestResponse] gets "Hello,World"
    as the first arg, [TestInvokeReply] finds it in [r.Word]. *)
Example TestRequestResponse :
  (Invoke "hello" hello
     [Output (mkEvent ∅ "OK" (slice_of [AString "Hello,World"]))] w0).1
  = Return (slice_of [AString "Hello,World"], None).
Proof. reflexivity. Qed.

Example TestInvokeReply :
  let r := InvokeReply "hello" (APtr (TStruct reply_type) (Some 1%positive))
             hello
             [Output (mkEvent ∅ "OK" (slice_of [AString "Hello,World"]))] w1 in
  r.1 = Return None
  ∧ heap r.2 !! 1%positive
    = Some (AStruct reply_type [AString "Hello,World"]).
Proof. split; reflexivity. Qed.

(** A reply arg of another type than the field makes the type
    assertion of the field loop panic. *)
Example InvokeReply_assertion_panics :
  (InvokeReply "hello" (APtr (TStruct reply_type) (Some 1%positive)) hello
     [Output (reply_event "OK" 7)] w1).1
  = Panic "interface conversion: interface {} is not string".
Proof. reflexivity. Qed.

(** C10. Called with a [reply] struct value instead of a pointer to
    it, [InvokeReply] does not return the "reply must be pointer"
    error: it panics in [reflect.ValueOf(reply).Elem()], with no
    channel opened and nothing sent. *)
Theorem InvokeReply_struct_value_panics :
  InvokeReply "hello"
    (AStruct reply_type [AString ""]) hello
    [Output (mkEvent ∅ "OK" (slice_of [AString "Hello,World"]))] w0
  = (Panic "reflect: call of reflect.Value.Elem on non-pointer Value", w0).
Proof.
  exact (InvokeReply_non_pointer (rt := healthy) "hello"
           (AStruct reply_type [AString ""]) hello _ w0).
Qed.

End Examples.

(** * Further properties of the client *)

(** ** Every way [Invoke] and [InvokeStream] can end *)

Section InvokerCases.

Context {rt : Runtime}.

(** [Invoke] and [InvokeStream] by the outcome of the setup. *)
Lemma Invoke_cases name args ds w :
  Invoke name args ds w
  = match newEvent name args with
    | inr err => (Return (nil_slice, Some err), w)
    | inl ev =>
        let ch := (newChannel "" (sock w)).1 in
        let r := sendEvent ch ev (newChannel "" (sock w)).2 in
        match r.1 with
        | Some err =>
            (Return (nil_slice, Some err),
             {| sock := close ch r.2; heap := heap w |})
        | None =>
            defer (close ch) (Invoke_select ds)
              {| sock := r.2; heap := heap w |}
        end
    end.
Proof.
  unfold Invoke. destruct (newEvent name args) as [ev|err]; [|done].
  unfold mbind, M_bind, bind, on_sock, defer.
  destruct (newChannel "" (sock w)) as [ch s1]. simpl.
  by destruct (sendEvent ch ev s1) as [[err|] s2].
Qed.

Lemma InvokeStream_cases name args ds w :
  InvokeStream name args ds w
  = match newEvent name args with
    | inr err => (Return (nil_slice, Some err), w)
    | inl ev =>
        let ch := (newChannel "" (sock w)).1 in
        let r := sendEvent ch ev (newChannel "" (sock w)).2 in
        match r.1 with
        | Some err =>
            (Return (nil_slice, Some err),
             {| sock := close ch r.2; heap := heap w |})
        | None =>
            defer (close ch) (InvokeStream_select (slice_of []) ds)
              {| sock := r.2; heap := heap w |}
        end
    end.
Proof.
  unfold InvokeStream. destruct (newEvent name args) as [ev|err]; [|done].
  unfold mbind, M_bind, bind, on_sock, defer.
  destruct (newChannel "" (sock w)) as [ch s1]. simpl.
  by destruct (sendEvent ch ev s1) as [[err|] s2].
Qed.

(** Deliveries split into leading STREAM events and a rest that is
    empty or starts with something else. *)
Lemma split_streams (ds : list delivery) :
  ∃ streams rest,
    ds = (Output <$> streams) ++ rest
    ∧ Forall (λ e, Name e = "STREAM") streams
    ∧ match rest with
      | Output e :: _ => Name e ≠ "STREAM"
      | _ => True
      end.
Proof.
  induction ds as [|d ds (streams & rest & -> & Hs & Hrest)].
  - by exists [], [].
  - destruct d as [e|err].
    + destruct (decide (Name e = "STREAM")) as [He|He].
      * exists (e :: streams), rest. split; [done|]. split; [|done].
        by constructor.
      * by exists [], (Output e :: (Output <$> streams) ++ rest).
    + by exists [], (ChanErr err :: (Output <$> streams) ++ rest).
Qed.

(** The stream loop on a delivery that is not a STREAM event. *)
Lemma InvokeStream_select_end out d ds w :
  match d with Output e => Name e ≠ "STREAM" | _ => True end →
  InvokeStream_select out (d :: ds) w
  = (Return
       match d with
       | ChanErr err => (nil_slice, Some err)
       | Output e =>
           if String.eqb (Name e) "ERR"
           then (append out (Args e), Some (Errorf_s (Args e)))
           else if String.eqb (Name e) "OK"
                then (append out (Args e), None)
                else (out, None)
       end, w).
Proof.
  destruct d as [e|err]; simpl; [|done]. intros He.
  destruct (String.eqb_spec (Name e) "ERR"); [done|].
  destruct (String.eqb_spec (Name e) "OK"); [done|].
  by destruct (String.eqb_spec (Name e) "STREAM").
Qed.

(** The three ways the setup of a call can go. *)
Lemma setup_cases name args w :
  (∃ err, newEvent name args = inr err)
  ∨ (∃ ev err s,
       newEvent name args = inl ev
       ∧ sendEvent (newChannel "" (sock w)).1 ev (newChannel "" (sock w)).2
         = (Some err, s))
  ∨ (∃ ch s, sent name args w ch s).
Proof.
  destruct (newEvent name args) as [ev|err] eqn:Hev; [|eauto].
  destruct (sendEvent (newChannel "" (sock w)).1 ev
              (newChannel "" (sock w)).2) as [[err|] s] eqn:Hs.
  - right. left. eauto.
  - right. right. exists (newChannel "" (sock w)).1, s. by exists ev.
Qed.

Lemma Invoke_newEvent_fails name args ds w err :
  newEvent name args = inr err →
  Invoke name args ds w = (Return (nil_slice, Some err), w).
Proof. intros H. by rewrite Invoke_cases, H. Qed.

Lemma InvokeStream_newEvent_fails name args ds w err :
  newEvent name args = inr err →
  InvokeStream name args ds w = (Return (nil_slice, Some err), w).
Proof. intros H. by rewrite InvokeStream_cases, H. Qed.

Lemma Invoke_send_fails name args ds w ev err s :
  newEvent name args = inl ev →
  sendEvent (newChannel "" (sock w)).1 ev (newChannel "" (sock w)).2
  = (Some err, s) →
  Invoke name args ds w
  = (Return (nil_slice, Some err),
     {| sock := close (newChannel "" (sock w)).1 s; heap := heap w |}).
Proof. intros Hev Hs. rewrite Invoke_cases, Hev. simpl. by rewrite Hs. Qed.

Lemma InvokeStream_send_fails name args ds w ev err s :
  newEvent name args = inl ev →
  sendEvent (newChannel "" (sock w)).1 ev (newChannel "" (sock w)).2
  = (Some err, s) →
  InvokeStream name args ds w
  = (Return (nil_slice, Some err),
     {| sock := close (newChannel "" (sock w)).1 s; heap := heap w |}).
Proof.
  intros Hev Hs. rewrite InvokeStream_cases, Hev. simpl. by rewrite Hs.
Qed.

(** [Invoke] after its setup, by what is delivered. *)
Lemma Invoke_sent_cases name args ds w ch s :
  sent name args w ch s →
  Invoke name args ds w
  = match ds with
    | [] => (Blocked, {| sock := s; heap := heap w |})
    | Output r :: _ =>
        (Return (Args r, if String.eqb (Name r) "ERR"
                         then Some (Errorf_s (Args r)) else None),
         {| sock := close ch s; heap := heap w |})
    | ChanErr err :: _ =>
        (Return (nil_slice, Some err),
         {| sock := close ch s; heap := heap w |})
    end.
Proof.
  intros Hsent. rewrite (Invoke_sent _ _ _ _ _ _ Hsent). unfold defer.
  destruct ds as [|[r|err] ds]; simpl; try done.
  by destruct (String.eqb _ _).
Qed.

(** [InvokeStream] after its setup, by what follows the leading STREAM
    events. *)
Lemma InvokeStream_sent_cases name args streams rest w ch s :
  sent name args w ch s →
  Forall (λ e, Name e = "STREAM") streams →
  match rest with Output e :: _ => Name e ≠ "STREAM" | _ => True end →
  InvokeStream name args ((Output <$> streams) ++ rest) w
  = match rest with
    | [] => (Blocked, {| sock := s; heap := heap w |})
    | d :: _ =>
        (Return
           match d with
           | ChanErr err => (nil_slice, Some err)
           | Output e =>
               if String.eqb (Name e) "ERR"
               then (slice_of ((Args <$> streams) ++ [Args e]),
                     Some (Errorf_s (Args e)))
               else if String.eqb (Name e) "OK"
                    then (slice_of ((Args <$> streams) ++ [Args e]), None)
                    else (slice_of (Args <$> streams), None)
           end, {| sock := close ch s; heap := heap w |})
    end.
Proof.
  intros Hsent Hs Hrest. rewrite (InvokeStream_sent _ _ _ _ _ _ Hsent).
  unfold defer. rewrite InvokeStream_select_streams by done. simpl.
  destruct rest as [|d rest]; [done|].
  rewrite InvokeStream_select_end by (by destruct d). by destruct d.
Qed.


(** X2. An error from [Invoke] has one of four sources. With a nil
    result it is the error of [newEvent] (nothing was opened), of
    [sendEvent], or the first delivery, taken from the error slot;
    otherwise the first delivery was a reply named "ERR", the result is
    its args and the error is built from them. *)
Theorem Invoke_error_source name args ds w res err w' :
  Invoke name args ds w = (Return (res, Some err), w') →
  (res = nil_slice
   ∧ ((newEvent name args = inr err ∧ w' = w)
      ∨ (∃ ev s,
           newEvent name args = inl ev
           ∧ sendEvent (newChannel "" (sock w)).1 ev
               (newChannel "" (sock w)).2 = (Some err, s))
      ∨ (∃ ch s ds', sent name args w ch s ∧ ds = ChanErr err :: ds')))
  ∨ (∃ ch s response ds',
       sent name args w ch s
       ∧ ds = Output response :: ds'
       ∧ Name response = "ERR"
       ∧ res = Args response
       ∧ err = Errorf_s (Args response)).
Proof.
  intros Hrun.
  destruct (setup_cases name args w)
    as [[e Hev]|[(ev & e & s & Hev & Hs)|(ch & s & Hsent)]].
  - rewrite (Invoke_newEvent_fails _ _ _ _ _ Hev) in Hrun.
    injection Hrun as <- <- <-. left. split; [done|]. by left.
  - rewrite (Invoke_send_fails _ _ _ _ _ _ _ Hev Hs) in Hrun.
    injection Hrun as <- <- _. left. split; [done|]. right. left. eauto.
  - rewrite (Invoke_sent_cases _ _ _ _ _ _ Hsent) in Hrun.
    destruct ds as [|[r|e] ds']; try done.
    + destruct (String.eqb_spec (Name r) "ERR") as [He|He]; [|done].
      injection Hrun as <- <- _. right. by exists ch, s, r, ds'.
    + injection Hrun as <- <- _. left. split; [done|]. right. right.
      by exists ch, s, ds'.
Qed.


(** X4. An error from [InvokeStream] has one of four sources. With a
    nil result it is the error of [newEvent], of [sendEvent], or an
    error taken from the error slot after STREAM events only, whose
    args are then lost; otherwise the STREAM events were followed by an
    event named "ERR", and the result holds the args of all of them. *)
Theorem InvokeStream_error_source name args ds w res err w' :
  InvokeStream name args ds w = (Return (res, Some err), w') →
  (res = nil_slice
   ∧ ((newEvent name args = inr err ∧ w' = w)
      ∨ (∃ ev s,
           newEvent name args = inl ev
           ∧ sendEvent (newChannel "" (sock w)).1 ev
               (newChannel "" (sock w)).2 = (Some err, s))
      ∨ (∃ ch s streams ds',
           sent name args w ch s
           ∧ Forall (λ e, Name e = "STREAM") streams
           ∧ ds = (Output <$> streams) ++ ChanErr err :: ds')))
  ∨ (∃ ch s streams last ds',
       sent name args w ch s
       ∧ Forall (λ e, Name e = "STREAM") streams
       ∧ ds = (Output <$> streams) ++ Output last :: ds'
       ∧ Name last = "ERR"
       ∧ res = slice_of ((Args <$> streams) ++ [Args last])
       ∧ err = Errorf_s (Args last)).
Proof.
  intros Hrun.
  destruct (setup_cases name args w)
    as [[e Hev]|[(ev & e & s & Hev & Hs)|(ch & s & Hsent)]].
  - rewrite (InvokeStream_newEvent_fails _ _ _ _ _ Hev) in Hrun.
    injection Hrun as <- <- <-. left. split; [done|]. by left.
  - rewrite (InvokeStream_send_fails _ _ _ _ _ _ _ Hev Hs) in Hrun.
    injection Hrun as <- <- _. left. split; [done|]. right. left. eauto.
  - destruct (split_streams ds) as (streams & rest & -> & Hs & Hrest).
    rewrite (InvokeStream_sent_cases _ _ _ _ _ _ _ Hsent Hs Hrest) in Hrun.
    destruct rest as [|[e|e] ds']; try done.
    + destruct (String.eqb_spec (Name e) "ERR") as [He|He].
      * injection Hrun as <- <- _. right. by exists ch, s, streams, e, ds'.
      * by destruct (String.eqb (Name e) "OK").
    + injection Hrun as <- <- _. left. split; [done|]. right. right.
      by exists ch, s, streams, ds'.
Qed.

(** X5. Once a call has returned, nothing delivered later changes what
    it returned or the state it left: [Invoke] reads one delivery,
    [InvokeStream] none after the one that ends it. *)
Theorem Invoke_ignores_later name args ds more w :
  (∀ r w', Invoke name args ds w = (Return r, w') →
           Invoke name args (ds ++ more) w = (Return r, w'))
  ∧ (∀ r w', InvokeStream name args ds w = (Return r, w') →
             InvokeStream name args (ds ++ more) w = (Return r, w')).
Proof.
  destruct (setup_cases name args w)
    as [[e Hev]|[(ev & e & s & Hev & Hs)|(ch & s & Hsent)]].
  - rewrite !(Invoke_newEvent_fails _ _ _ _ _ Hev),
      !(InvokeStream_newEvent_fails _ _ _ _ _ Hev). done.
  - rewrite !(Invoke_send_fails _ _ _ _ _ _ _ Hev Hs),
      !(InvokeStream_send_fails _ _ _ _ _ _ _ Hev Hs). done.
  - split; intros r w'.
    + rewrite !(Invoke_sent_cases _ _ _ _ _ _ Hsent).
      by destruct ds as [|d ds'].
    + destruct (split_streams ds) as (streams & rest & -> & Hs & Hrest).
      rewrite <- app_assoc.
      rewrite (InvokeStream_sent_cases _ _ _ rest _ _ _ Hsent Hs Hrest).
      destruct rest as [|d rest]; [done|]. simpl.
      by rewrite (InvokeStream_sent_cases _ _ _ (d :: rest ++ more)
                    _ _ _ Hsent Hs) by (by destruct d).
Qed.

(** X6. A call that has sent its event waits for ever exactly when
    nothing ends it: [Invoke] when nothing is delivered, [InvokeStream]
    when only STREAM events are. There is no timeout of the call's own,
    and a waiting call has not closed its channel: the socket is as
    [sendEvent] left it. *)
Theorem Invoke_blocks name args ds w ch s :
  sent name args w ch s →
  ((Invoke name args ds w).1 = Blocked ↔ ds = [])
  ∧ ((InvokeStream name args ds w).1 = Blocked
     ↔ ∃ streams, Forall (λ e, Name e = "STREAM") streams
                  ∧ ds = Output <$> streams)
  ∧ ((Invoke name args ds w).1 = Blocked →
     (Invoke name args ds w).2 = {| sock := s; heap := heap w |})
  ∧ ((InvokeStream name args ds w).1 = Blocked →
     (InvokeStream name args ds w).2 = {| sock := s; heap := heap w |}).
Proof.
  intros Hsent.
  assert (∀ streams rest,
    Forall (λ e, Name e = "STREAM") streams →
    match rest with Output e :: _ => Name e ≠ "STREAM" | _ => True end →
    (InvokeStream name args ((Output <$> streams) ++ rest) w).1 = Blocked →
    rest = []) as Hend.
  { intros streams rest Hs Hrest.
    rewrite (InvokeStream_sent_cases _ _ _ _ _ _ _ Hsent Hs Hrest).
    by destruct rest. }
  destruct (split_streams ds) as (streams & rest & -> & Hs & Hrest).
  split; [|split; [|split]].
  - rewrite (Invoke_sent_cases _ _ _ _ _ _ Hsent).
    by destruct ((Output <$> streams) ++ rest) as [|[r|err] ds'].
  - split.
    + intros Hb. apply (Hend _ _ Hs Hrest) in Hb as ->.
      exists streams. by rewrite app_nil_r.
    + intros (streams' & Hs' & ->).
      rewrite <- (app_nil_r (Output <$> streams')).
      by rewrite (InvokeStream_sent_cases _ _ _ [] _ _ _ Hsent Hs').
  - rewrite (Invoke_sent_cases _ _ _ _ _ _ Hsent).
    by destruct ((Output <$> streams) ++ rest) as [|[r|err] ds'].
  - intros Hb. apply (Hend _ _ Hs Hrest) in Hb as ->.
    by rewrite (InvokeStream_sent_cases _ _ _ [] _ _ _ Hsent Hs).
Qed.

(** X7. On a reply named "OK" or "ERR" as first delivery, [InvokeStream]
    returns what [Invoke] returns, as the only element of its
    sequence, with the same error and the same final state. *)
Theorem InvokeStream_single_reply name args response ds ds' w ch s :
  sent name args w ch s →
  Name response = "OK" ∨ Name response = "ERR" →
  ∃ res err w',
    Invoke name args (Output response :: ds) w = (Return (res, err), w')
    ∧ InvokeStream name args (Output response :: ds') w
      = (Return (slice_of [res], err), w').
Proof.
  intros Hsent Hname.
  rewrite (Invoke_sent_cases _ _ _ _ _ _ Hsent).
  assert (Name response ≠ "STREAM") as Hns
    by (destruct Hname; congruence).
  pose proof (InvokeStream_sent_cases name args [] (Output response :: ds')
                w ch s Hsent (Forall_nil_2 _) Hns) as Hstream.
  simpl in Hstream. rewrite Hstream.
  do 3 eexists. split; [reflexivity|]. simpl.
  destruct (String.eqb_spec (Name response) "ERR") as [He|He]; [done|].
  destruct Hname as [Hok|Herr]; [|done]. by rewrite Hok.
Qed.

(** X8. Of a delivered event the invokers read the name and the args
    and nothing else: two runs of deliveries that agree on those (and
    on the errors) give the same results and the same final state,
    whatever the headers say. No [message_id] or [response_to] is
    checked here. *)
Theorem Invoke_reads_name_and_args name args ds1 ds2 w :
  Forall2 (λ d1 d2,
    match d1, d2 with
    | Output e1, Output e2 => Name e1 = Name e2 ∧ Args e1 = Args e2
    | ChanErr err1, ChanErr err2 => err1 = err2
    | _, _ => False
    end) ds1 ds2 →
  Invoke name args ds1 w = Invoke name args ds2 w
  ∧ InvokeStream name args ds1 w = InvokeStream name args ds2 w.
Proof.
  intros Hds.
  assert (∀ out w0, InvokeStream_select out ds1 w0
                    = InvokeStream_select out ds2 w0) as Hall.
  { induction Hds as [|[e1|err1] [e2|err2] ds1 ds2 Hd _ IH];
      intros out w0; simpl; try done.
    - destruct Hd as [-> ->].
      destruct (String.eqb _ "ERR"); [done|].
      destruct (String.eqb _ "OK"); [done|].
      destruct (String.eqb _ "STREAM"); [apply IH|done].
    - by subst. }
  assert (∀ w0, Invoke_select ds1 w0 = Invoke_select ds2 w0) as Hone.
  { intros w0. destruct Hds as [|[e1|err1] [e2|err2] ds1 ds2 Hd _];
      simpl; try done.
    - destruct Hd as [-> ->]. done.
    - by subst. }
  rewrite !Invoke_cases, !InvokeStream_cases.
  destruct (newEvent name args) as [ev|err]; [|done]. simpl.
  destruct (sendEvent _ ev _) as [[err|] s]; simpl; [done|].
  unfold defer. by rewrite Hone, Hall.
Qed.

End InvokerCases.

(** ** The field loop of [InvokeReply] *)

Section ReplyFacts.

Context {rt : Runtime}.

Import Reply.

(** [InvokeReply] on a pointer, by what its [Invoke] does. *)
Lemma InvokeReply_pointer name t target args ds w :
  InvokeReply name (APtr t target) args ds w
  = match Invoke name args ds w with
    | (Return (reply_args, Some e), w') => (Return (Some e), w')
    | (Return (reply_args, None), w') =>
        match t with
        | TStruct fs =>
            if bool_decide (length fs = len reply_args) then
              match set_fields
                      match target with
                      | Some a => valueAt t a
                      | None => zeroValue
                      end reply_args (seq 0 (length fs)) w' with
              | (Return _, w'') => (Return None, w'')
              | (Blocked, w'') => (Blocked, w'')
              | (Panic msg, w'') => (Panic msg, w'')
              end
            else (Return None, w')
        | _ => (Panic "reflect: NumField of non-struct type", w')
        end
    | (Blocked, w') => (Blocked, w')
    | (Panic msg, w') => (Panic msg, w')
    end.
Proof.
  unfold InvokeReply, mbind, M_bind, bind. simpl.
  destruct target as [a|]; simpl;
    destruct (Invoke name args ds w) as [[[ra [e|]]| |msg] w']; try done;
    destruct t; try done; simpl; by case_bool_decide.
Qed.

(** X9. Whatever the pointer points to, [InvokeReply] passes on the
    error of its [Invoke] and writes nothing; the number of fields is
    not even looked at, so a pointer to something that is no struct
    does not panic here. A call whose [Invoke] waits for ever waits
    for ever. *)
Theorem InvokeReply_error_passes name t target args ds w :
  (∀ reply_args err w',
     Invoke name args ds w = (Return (reply_args, Some err), w') →
     InvokeReply name (APtr t target) args ds w = (Return (Some err), w')
     ∧ heap w' = heap w)
  ∧ ((Invoke name args ds w).1 = Blocked →
     (InvokeReply name (APtr t target) args ds w).1 = Blocked).
Proof.
  rewrite InvokeReply_pointer. split.
  - intros ra err w' Hinv. rewrite Hinv. split; [done|].
    pose proof (Invoke_heap name args ds w) as H. by rewrite Hinv in H.
  - by destruct (Invoke name args ds w) as [[[ra [e|]]| |msg] w'].
Qed.

(** X10. Given a pointer to something that is no struct, [InvokeReply]
    panics in [typ.NumField()] once its [Invoke] has succeeded: the
    panic comes after the call has been made, in the state [Invoke]
    left. *)
Theorem InvokeReply_non_struct name t target args ds w reply_args w' :
  kind_of t ≠ reflect.Struct →
  Invoke name args ds w = (Return (reply_args, None), w') →
  InvokeReply name (APtr t target) args ds w
  = (Panic "reflect: NumField of non-struct type", w').
Proof.
  intros Ht Hinv. rewrite InvokeReply_pointer, Hinv. by destruct t.
Qed.

(** X11. Given a nil pointer to a struct type and a successful reply
    with as many args as the type has fields, [InvokeReply] panics in
    [val.Field(0)], on the zero Value, unless the type has no field. *)
Theorem InvokeReply_nil_pointer name fs args ds w reply_args w' :
  Invoke name args ds w = (Return (reply_args, None), w') →
  length fs = len reply_args →
  InvokeReply name (APtr (TStruct fs) None) args ds w
  = (if decide (fs = []) then Return None
     else Panic "reflect: call of reflect.Value.Field on non-struct Value",
     w').
Proof.
  intros Hinv Hlen. rewrite InvokeReply_pointer, Hinv.
  rewrite bool_decide_eq_true_2 by done. by destruct fs.
Qed.

(** The loop keeps the number of values of the record. *)
Lemma length_fill fs : ∀ rs vs, length (fill fs rs vs) = length vs.
Proof.
  induction fs as [|f fs IH]; intros [|r rs] [|v vs]; simpl; try done.
  by rewrite IH.
Qed.

(** Values beyond the visited fields stay. *)
Lemma fill_lookup_ge fs : ∀ rs vs (i : nat),
  (length fs ≤ i)%nat → fill fs rs vs !! i = vs !! i.
Proof.
  induction fs as [|f fs IH]; intros [|r rs] [|v vs] i Hi; simpl in *;
    try done.
  destruct i as [|i]; [lia|]. simpl. apply IH. lia.
Qed.

(** Visiting one more field assigns it. *)
Lemma fill_take_S (k : nat) : ∀ fs rs vs f r v,
  fs !! k = Some f → rs !! k = Some r → vs !! k = Some v →
  <[k := assign f r v]> (fill (take k fs) rs vs)
  = fill (take (S k) fs) rs vs.
Proof.
  induction k as [|k IH]; intros [|f0 fs] [|r0 rs] [|v0 vs] f r v;
    simpl; try done.
  - by intros [= ->] [= ->] [= ->].
  - intros Hf Hr Hv. f_equal. by apply IH.
Qed.

(** One turn of the field loop on a record in the heap. *)
Lemma set_field_step fs a ra (i : nat) f r cur v w :
  fs !! i = Some f → elems_of ra !! i = Some r →
  heap w !! a = Some (AStruct fs cur) → cur !! i = Some v →
  set_field (valueAt (TStruct fs) a) ra i w
  = if accepts f r
    then (Return (),
          {| sock := sock w;
             heap := <[a := AStruct fs (<[i := assign f r v]> cur)]>
                       (heap w) |})
    else (Panic (rejection f), w).
Proof.
  intros Hf Hr Ha Hv. destruct f as [[nm exported] t].
  assert (w = {| sock := sock w;
                 heap := <[a := AStruct fs (<[i := v]> cur)]> (heap w) |})
    as Hsame.
  { rewrite list_insert_id by done. rewrite insert_id by done.
    by destruct w. }
  unfold set_field, mbind, M_bind, bind, accepts, assign, rejection.
  simpl. rewrite Hf. simpl. destruct exported; simpl; [|by f_equal].
  unfold index. rewrite Hr. simpl.
  destruct t; simpl; try (by f_equal); destruct r; simpl; try done;
    unfold SetInt, SetString, store; simpl; by rewrite Ha.
Qed.

(** The loop over the fields [k], ..., [k + m - 1], all of which accept
    their arg, on a record whose fields below [k] have been visited. *)
Lemma set_fields_run fs a ra vals (m : nat) : ∀ (k : nat) w,
  (k + m ≤ length fs)%nat →
  length vals = length fs → len ra = length fs →
  heap w !! a = Some (AStruct fs (fill (take k fs) (elems_of ra) vals)) →
  (∀ (i : nat) f r, (k ≤ i < k + m)%nat →
     fs !! i = Some f → elems_of ra !! i = Some r → accepts f r = true) →
  set_fields (valueAt (TStruct fs) a) ra (seq k m) w
  = (Return (),
     {| sock := sock w;
        heap := <[a := AStruct fs
                         (fill (take (k + m) fs) (elems_of ra) vals)]>
                  (heap w) |}).
Proof.
  induction m as [|m IH]; intros k w Hk Hvals Hra Ha Hacc; simpl.
  - rewrite Nat.add_0_r, insert_id by done. by destruct w.
  - destruct (lookup_lt_is_Some_2 fs k) as [f Hf]; [lia|].
    destruct (lookup_lt_is_Some_2 (elems_of ra) k) as [r Hr];
      [unfold len in Hra; lia|].
    destruct (lookup_lt_is_Some_2 vals k) as [v Hv]; [lia|].
    unfold mbind, M_bind, bind.
    rewrite (set_field_step fs a ra k f r _ v w Hf Hr Ha)
      by (rewrite fill_lookup_ge by (rewrite length_take; lia); done).
    rewrite (Hacc k f r) by (done || lia).
    rewrite (fill_take_S k fs _ vals f r v Hf Hr Hv).
    rewrite IH; simpl.
    + by rewrite insert_insert_eq, Nat.add_succ_r.
    + lia.
    + done.
    + done.
    + by rewrite lookup_insert_eq.
    + intros i f' r' Hi. apply Hacc. lia.
Qed.

Lemma set_fields_app val ra l1 l2 w :
  set_fields val ra (l1 ++ l2) w
  = match set_fields val ra l1 w with
    | (Return _, w') => set_fields val ra l2 w'
    | (Blocked, w') => (Blocked, w')
    | (Panic msg, w') => (Panic msg, w')
    end.
Proof.
  revert w. induction l1 as [|i l1 IH]; intros w; simpl; [done|].
  unfold mbind, M_bind, bind.
  by destruct (set_field val ra i w) as [[[]| |msg] w'].
Qed.

(** X12. Given a pointer to a record and a successful reply whose args
    fit its fields, [InvokeReply] returns nil and leaves in the record
    what [Reply.fill] says: every settable field of kind Int or String
    holds the arg at its index, every other field (unexported, or of
    another kind, [int64] included) holds what it held. Nothing else in
    the heap changes. *)
Theorem InvokeReply_fills name fs a vals args ds w reply_args w' :
  heap w !! a = Some (AStruct fs vals) → length vals = length fs →
  Invoke name args ds w = (Return (reply_args, None), w') →
  Forall2 (λ f r, Reply.accepts f r = true) fs (elems_of reply_args) →
  InvokeReply name (APtr (TStruct fs) (Some a)) args ds w
  = (Return None,
     {| sock := sock w';
        heap := <[a := AStruct fs
                         (Reply.fill fs (elems_of reply_args) vals)]>
                  (heap w) |}).
Proof.
  intros Ha Hvals Hinv Hacc.
  pose proof (Forall2_length _ _ _ Hacc) as Hlen.
  pose proof (Invoke_heap name args ds w) as Hheap.
  rewrite Hinv in Hheap. simpl in Hheap.
  rewrite InvokeReply_pointer, Hinv.
  rewrite bool_decide_eq_true_2 by done.
  rewrite (set_fields_run fs a reply_args vals (length fs) 0 w').
  - simpl. by rewrite take_ge, Hheap by done.
  - done.
  - done.
  - done.
  - by rewrite Hheap.
  - intros i f r _ Hf Hr. apply (Forall2_lookup_lr _ _ _ _ _ _ Hacc Hf Hr).
Qed.

(** X13. When the arg at index [k] is the first that does not fit its
    field, [InvokeReply] panics in the type assertion for that field,
    and the record is left half written: the fields below [k] hold
    their args, the others what they held. *)
Theorem InvokeReply_rejects name fs a vals args ds w reply_args w'
    (k : nat) f r :
  heap w !! a = Some (AStruct fs vals) → length vals = length fs →
  Invoke name args ds w = (Return (reply_args, None), w') →
  length fs = len reply_args →
  (∀ (i : nat) f' r', (i < k)%nat → fs !! i = Some f' →
     elems_of reply_args !! i = Some r' → Reply.accepts f' r' = true) →
  fs !! k = Some f → elems_of reply_args !! k = Some r →
  Reply.accepts f r = false →
  InvokeReply name (APtr (TStruct fs) (Some a)) args ds w
  = (Panic (Reply.rejection f),
     {| sock := sock w';
        heap := <[a := AStruct fs
                         (Reply.fill (take k fs) (elems_of reply_args) vals)]>
                  (heap w) |}).
Proof.
  intros Ha Hvals Hinv Hlen Hacc Hf Hr Hrej.
  pose proof (Invoke_heap name args ds w) as Hheap.
  rewrite Hinv in Hheap. simpl in Hheap.
  pose proof (lookup_lt_Some _ _ _ Hf) as Hk.
  destruct (lookup_lt_is_Some_2 vals k) as [v Hv]; [lia|].
  rewrite InvokeReply_pointer, Hinv.
  rewrite bool_decide_eq_true_2 by done.
  replace (length fs) with (k + S (length fs - S k))%nat at 1 by lia.
  rewrite seq_app, set_fields_app.
  rewrite (set_fields_run fs a reply_args vals k 0 w'); simpl.
  - unfold mbind, M_bind, bind.
    erewrite (set_field_step fs a reply_args k f r _ v); simpl.
    + by rewrite Hrej, Hheap.
    + done.
    + done.
    + by rewrite lookup_insert_eq.
    + rewrite fill_lookup_ge by (rewrite length_take; lia). done.
  - lia.
  - done.
  - done.
  - by rewrite Hheap.
  - intros i f' r' [_ Hi]. by apply Hacc.
Qed.

Lemma keeps_refl a h : keeps a h h.
Proof. split; [done|]. destruct (h !! a) as [[]|]; eauto. Qed.

Lemma keeps_trans a h1 h2 h3 : keeps a h1 h2 → keeps a h2 h3 → keeps a h1 h3.
Proof.
  intros [Hf1 Ha1] [Hf2 Ha2]. split.
  - intros b Hb. by rewrite Hf2, Hf1.
  - destruct (h1 !! a) as [x|]; [|by rewrite Ha1 in Ha2].
    destruct x; try (by rewrite Ha1 in Ha2).
    destruct Ha1 as (vals1 & Hv1 & Hl1). rewrite Hv1 in Ha2.
    destruct Ha2 as (vals2 & Hv2 & Hl2). exists vals2. split; [done|].
    by rewrite Hl2.
Qed.

(** Writing a field changes the record it is a field of, and only the
    values of that record. *)
Lemma store_keeps a i exported t x w :
  keeps a (heap w) (heap (store (fieldAt a i exported t) x w).2)
  ∧ sock (store (fieldAt a i exported t) x w).2 = sock w.
Proof.
  unfold store. destruct exported; [|split; [apply keeps_refl|done]].
  destruct (heap w !! a) as [y|] eqn:Ha; [|split; [apply keeps_refl|done]].
  destruct y; try (split; [apply keeps_refl|done]). simpl.
  split; [|done]. split.
  - intros b Hb. by rewrite lookup_insert_ne.
  - rewrite Ha, lookup_insert_eq. eexists. split; [done|].
    by rewrite length_insert.
Qed.

Lemma set_field_keeps t a ra i w :
  keeps a (heap w) (heap (set_field (valueAt t a) ra i w).2)
  ∧ sock (set_field (valueAt t a) ra i w).2 = sock w.
Proof.
  assert (keeps a (heap w) (heap w) ∧ sock w = sock w) as Hsame
    by (split; [apply keeps_refl|done]).
  unfold set_field, mbind, M_bind, bind, Value_Field.
  destruct t; try done.
  destruct (fields !! i) as [[[nm exported] ft]|]; simpl; [|done].
  destruct exported; simpl; [|done].
  unfold index. destruct (elems_of ra !! i) as [r|]; simpl; [|done].
  destruct (kind_of ft) eqn:Hkind; simpl; try done.
  - destruct r; simpl; try done. unfold SetInt. simpl. rewrite Hkind.
    apply store_keeps.
  - destruct r; simpl; try done. unfold SetString. simpl. rewrite Hkind.
    apply store_keeps.
Qed.

Lemma set_fields_keeps t a ra todo : ∀ w,
  keeps a (heap w) (heap (set_fields (valueAt t a) ra todo w).2)
  ∧ sock (set_fields (valueAt t a) ra todo w).2 = sock w.
Proof.
  induction todo as [|i todo IH]; intros w; simpl.
  - split; [apply keeps_refl|done].
  - unfold mbind, M_bind, bind.
    destruct (set_field_keeps t a ra i w) as [Hk Hs].
    destruct (set_field (valueAt t a) ra i w) as [[[]| |msg] w1];
      simpl in *; try done.
    destruct (IH w1) as [Hk' Hs']. split.
    + by apply (keeps_trans _ _ (heap w1)).
    + by rewrite Hs'.
Qed.

(** X14. [InvokeReply] writes nowhere but in the record [reply] points
    to: every other heap cell is as before, whether the call returns,
    panics or waits, and the record keeps its type and its number of
    values. Given anything but a pointer to a heap cell, it leaves the
    whole heap as it is. *)
Theorem InvokeReply_frame name reply args ds w :
  match reply with
  | APtr t (Some a) =>
      Reply.keeps a (heap w) (heap (InvokeReply name reply args ds w).2)
  | _ => heap (InvokeReply name reply args ds w).2 = heap w
  end.
Proof.
  pose proof (InvokeReply_non_pointer name reply args ds w) as Hnp.
  destruct reply as [| | | | | | | | | |t target];
    try (by rewrite Hnp).
  clear Hnp. rewrite InvokeReply_pointer.
  pose proof (Invoke_heap name args ds w) as Hheap.
  destruct (Invoke name args ds w) as [[[ra [e|]]| |msg] w']; simpl in *.
  - rewrite Hheap. destruct target; [apply keeps_refl|done].
  - assert (match target with
            | Some a => keeps a (heap w) (heap w')
            | None => heap w' = heap w
            end) as Hsame
      by (rewrite Hheap; destruct target; [apply keeps_refl|done]).
    destruct t; try done. case_bool_decide; [|done].
    destruct target as [a|].
    + destruct (set_fields_keeps (TStruct fields) a ra
                  (seq 0 (length fields)) w') as [Hk _].
      rewrite Hheap in Hk.
      by destruct (set_fields _ ra _ w') as [[[]| |msg] w''].
    + destruct fields; simpl; [done|]. by rewrite Hheap.
  - rewrite Hheap. destruct target; [apply keeps_refl|done].
  - rewrite Hheap. destruct target; [apply keeps_refl|done].
Qed.

End ReplyFacts.

(** ** Worked examples for the further properties *)

Section MoreExamples.

Import Scenario Fixture.

Local Existing Instance healthy.


Lemma Invoke_error_source_witness :
  let ds := [Output (reply_event "ERR" 7)] in
  let res := slice_of [AInt64 7] in
  let err := Errorf_s (slice_of [AInt64 7]) in
  (res = nil_slice
   ∧ ((newEvent "hello" hello = inr err
       ∧ (Invoke "hello" hello ds w0).2 = w0)
      ∨ (∃ ev s,
           newEvent "hello" hello = inl ev
           ∧ sendEvent (newChannel "" (sock w0)).1 ev
               (newChannel "" (sock w0)).2 = (Some err, s))
      ∨ (∃ ch s ds', sent "hello" hello w0 ch s ∧ ds = ChanErr err :: ds')))
  ∨ (∃ ch s response ds',
       sent "hello" hello w0 ch s
       ∧ ds = Output response :: ds'
       ∧ Name response = "ERR"
       ∧ res = Args response
       ∧ err = Errorf_s (Args response)).
Proof.
  intros ds res err.
  apply (Invoke_error_source (rt := healthy) "hello" hello ds w0 res err).
  reflexivity.
Defined.


Lemma InvokeStream_error_source_witness :
  let ds := [Output (reply_event "STREAM" 1); ChanErr ErrLostRemote] in
  (nil_slice = @nil_slice (slice any)
   ∧ ((newEvent "range" hello = inr ErrLostRemote
       ∧ (InvokeStream "range" hello ds w0).2 = w0)
      ∨ (∃ ev s,
           newEvent "range" hello = inl ev
           ∧ sendEvent (newChannel "" (sock w0)).1 ev
               (newChannel "" (sock w0)).2 = (Some ErrLostRemote, s))
      ∨ (∃ ch s streams ds',
           sent "range" hello w0 ch s
           ∧ Forall (λ e, Name e = "STREAM") streams
           ∧ ds = (Output <$> streams) ++ ChanErr ErrLostRemote :: ds')))
  ∨ (∃ ch s streams last ds',
       sent "range" hello w0 ch s
       ∧ Forall (λ e, Name e = "STREAM") streams
       ∧ ds = (Output <$> streams) ++ Output last :: ds'
       ∧ Name last = "ERR"
       ∧ nil_slice = slice_of ((Args <$> streams) ++ [Args last])
       ∧ ErrLostRemote = Errorf_s (Args last)).
Proof.
  intros ds.
  apply (InvokeStream_error_source (rt := healthy) "range" hello ds w0
           nil_slice ErrLostRemote).
  reflexivity.
Defined.

Lemma Invoke_ignores_later_witness :
  Invoke "hello" hello
    ([Output (reply_event "OK" 7)] ++ [ChanErr ErrLostRemote]) w0
  = (Return (slice_of [AInt64 7], None),
     (Invoke "hello" hello [Output (reply_event "OK" 7)] w0).2).
Proof.
  apply (proj1 (Invoke_ignores_later (rt := healthy) "hello" hello
                  [Output (reply_event "OK" 7)] [ChanErr ErrLostRemote] w0)).
  reflexivity.
Defined.

Lemma Invoke_blocks_witness :
  let ds := [Output (reply_event "STREAM" 1)] in
  ((Invoke "range" hello ds w0).1 = Blocked ↔ ds = [])
  ∧ ((InvokeStream "range" hello ds w0).1 = Blocked
     ↔ ∃ streams, Forall (λ e, Name e = "STREAM") streams
                  ∧ ds = Output <$> streams)
  ∧ ((Invoke "range" hello ds w0).1 = Blocked →
     (Invoke "range" hello ds w0).2
     = {| sock := sent_socket; heap := heap w0 |})
  ∧ ((InvokeStream "range" hello ds w0).1 = Blocked →
     (InvokeStream "range" hello ds w0).2
     = {| sock := sent_socket; heap := heap w0 |}).
Proof.
  intros ds.
  exact (Invoke_blocks (rt := healthy) "range" hello ds w0 "m1" sent_socket
           (scenario_sent _ _)).
Defined.

Lemma InvokeStream_single_reply_witness :
  ∃ res err w',
    Invoke "hello" hello [Output (reply_event "ERR" 7)] w0
    = (Return (res, err), w')
    ∧ InvokeStream "hello" hello
        [Output (reply_event "ERR" 7); Output (reply_event "OK" 8)] w0
      = (Return (slice_of [res], err), w').
Proof.
  apply (InvokeStream_single_reply (rt := healthy) "hello" hello
           (reply_event "ERR" 7) [] [Output (reply_event "OK" 8)] w0
           "m1" sent_socket (scenario_sent _ _)).
  by right.
Defined.

Lemma Invoke_reads_name_and_args_witness :
  Invoke "hello" hello [Output (reply_event "OK" 7)] w0
  = Invoke "hello" hello [Output (ok_event (slice_of [AInt64 7]))] w0
  ∧ InvokeStream "hello" hello [Output (reply_event "OK" 7)] w0
    = InvokeStream "hello" hello [Output (ok_event (slice_of [AInt64 7]))] w0.
Proof.
  apply (Invoke_reads_name_and_args (rt := healthy)).
  repeat constructor.
Defined.

Lemma InvokeReply_error_passes_witness :
  let ds := [Output (reply_event "ERR" 7)] in
  InvokeReply "hello" (APtr TInt None) hello ds w1
  = (Return (Some (Errorf_s (slice_of [AInt64 7]))),
     (Invoke "hello" hello ds w1).2)
  ∧ heap (Invoke "hello" hello ds w1).2 = heap w1.
Proof.
  intros ds.
  apply (proj1 (InvokeReply_error_passes (rt := healthy) "hello" TInt None
                  hello ds w1) (slice_of [AInt64 7])).
  reflexivity.
Defined.

Lemma InvokeReply_non_struct_witness :
  let ds := [Output (reply_event "OK" 7)] in
  InvokeReply "hello" (APtr TInt None) hello ds w1
  = (Panic "reflect: NumField of non-struct type",
     (Invoke "hello" hello ds w1).2).
Proof.
  intros ds.
  apply (InvokeReply_non_struct (rt := healthy) "hello" TInt None hello ds
           w1 (slice_of [AInt64 7])).
  - discriminate.
  - reflexivity.
Defined.

Lemma InvokeReply_nil_pointer_witness :
  let ds := [Output (reply_event "OK" 7)] in
  InvokeReply "hello" (APtr (TStruct reply_type) None) hello ds w1
  = (Panic "reflect: call of reflect.Value.Field on non-struct Value",
     (Invoke "hello" hello ds w1).2).
Proof.
  intros ds.
  apply (InvokeReply_nil_pointer (rt := healthy) "hello" reply_type hello
           ds w1 (slice_of [AInt64 7])).
  - reflexivity.
  - reflexivity.
Defined.

Lemma InvokeReply_fills_witness :
  let ds := [Output (ok_event fitting)] in
  InvokeReply "hello" (APtr (TStruct entry_type) (Some 2%positive)) hello
    ds w2
  = (Return None,
     {| sock := sock (Invoke "hello" hello ds w2).2;
        heap := <[2%positive :=
                    AStruct entry_type
                      (Reply.fill entry_type (elems_of fitting) entry_vals)]>
                  (heap w2) |}).
Proof.
  intros ds.
  apply (InvokeReply_fills (rt := healthy) "hello" entry_type 2%positive
           entry_vals hello ds w2 fitting).
  - reflexivity.
  - reflexivity.
  - reflexivity.
  - repeat constructor.
Defined.

Lemma InvokeReply_rejects_witness :
  let ds := [Output (ok_event unfitting)] in
  InvokeReply "hello" (APtr (TStruct entry_type) (Some 2%positive)) hello
    ds w2
  = (Panic "interface conversion: interface {} is not string",
     {| sock := sock (Invoke "hello" hello ds w2).2;
        heap := <[2%positive :=
                    AStruct entry_type
                      [AInt 7; AString ""; AString "keep"; AInt64 9]]>
                  (heap w2) |}).
Proof.
  intros ds.
  apply (InvokeReply_rejects (rt := healthy) "hello" entry_type 2%positive
           entry_vals hello ds w2 unfitting _ 1
           ("Word", true, TString) (AInt64 8)).
  - reflexivity.
  - reflexivity.
  - reflexivity.
  - reflexivity.
  - intros [|i] f' r' Hi; [|lia]. by intros [= <-] [= <-].
  - reflexivity.
  - reflexivity.
  - reflexivity.
Defined.

(** The record of [Fixture.w2] after a fitting reply: [Count] and
    [Word] hold their args, the unexported [note] and the [int64]
    field [Size] are as before. *)
Example fill_entry :
  Reply.fill entry_type (elems_of fitting) entry_vals
  = [AInt 7; AString "seven"; AString "keep"; AInt64 9].
Proof. reflexivity. Qed.

End MoreExamples.
